(** * Scheduled-notification engine of vault-server

    A shallow embedding of the Firebase functions under [functions/src]
    (the push, email and SMS schedulers and [index.ts]) together with the
    two channel services they call, and the properties of the scheduling,
    dispatching, cancellation and retention paths.

    Conventions of the embedding.
    - Instants ([Date], Firestore [Timestamp]) are integers: milliseconds
      since the epoch.  Every read of a clock ([new Date()],
      [Timestamp.now()], [FieldValue.serverTimestamp()]) is an explicit
      argument, so that two reads within one call may differ.
    - A Firestore collection is a finite map from document ids to
      documents.  Ids are assigned by the store and never used twice; this is
      modelled by an allocation counter.
    - Store operations are assumed to succeed; faults of the persistence
      layer are outside the embedding.
    - [Timestamp.fromDate] is taken to return.  It throws for an instant
      outside the years 1 to 9999 ([inTimestampRange]); a statement about a
      date supplied by a caller, or computed for a retry, carries that range
      as a hypothesis, and says nothing about instants beyond it.
    - The transports (FCM, Twilio, the email service) are oracles handed to
      each dispatcher pass; every call made to a transport is logged. *)

From Stdlib Require Import ZArith String Ascii Lia.
From stdpp Require Import base option list gmap strings fin_maps pretty sorting.

Local Open Scope string_scope.
Local Open Scope list_scope.
Local Open Scope nat_scope.

(** ** JavaScript values as far as the code inspects them *)

(** Truthiness of a string: only the empty string is falsy.  A field that
    is absent is represented by [None] (or by the empty string where the
    TypeScript interface declares [string]); both are falsy. *)
Definition truthy (s : string) : bool :=
  match s with EmptyString => false | String _ _ => true end.

Definition truthy_opt (o : option string) : bool :=
  match o with Some s => truthy s | None => false end.

(** [a || d] on strings, numbers and counters. *)
Definition or_string (o : option string) (d : string) : string :=
  match o with Some s => if truthy s then s else d | None => d end.

Definition or_Z (o : option Z) (d : Z) : Z :=
  match o with Some z => if (z =? 0)%Z then d else z | None => d end.

Definition or_nat (n d : nat) : nat :=
  match n with O => d | S _ => n end.

(** The state of a settled promise. *)
Inductive Settled (A : Type) : Type :=
| Fulfilled (value : A)
| Rejected (reason : string).
Arguments Fulfilled {A} value.
Arguments Rejected {A} reason.

Definition isFulfilled {A} (r : Settled A) : bool :=
  match r with Fulfilled _ => true | Rejected _ => false end.

(** The outcome of a call that either returns or throws [new Error(msg)]. *)
Inductive Outcome (A : Type) : Type :=
| Returned (value : A)
| Threw (message : string).
Arguments Returned {A} value.
Arguments Threw {A} message.

(** [Array.prototype.join]. *)
Fixpoint join (sep : string) (l : list string) : string :=
  match l with
  | [] => ""
  | [x] => x
  | x :: rest => x +:+ sep +:+ join sep rest
  end.

(** ** Data model *)

Abbreviation Instant := Z.
Abbreviation DocId := positive.

Inductive Status := Scheduled | Processing | Sent | Failed | Cancelled.

#[global] Instance Status_eq_dec : EqDecision Status.
Proof. solve_decision. Defined.

Inductive Channel := Push | Email | Sms.

#[global] Instance Channel_eq_dec : EqDecision Channel.
Proof. solve_decision. Defined.

(** [userContact]: every scheduler stores the field of its own channel;
    [index.ts] receives all three, each optional. *)
Record UserContact := {
  fcmTokens : option (list string);
  email : option string;
  phone : option string
}.

(** [PushNotificationData], [EmailNotificationData], [SMSNotificationData]:
    the three interfaces differ only in the contact field. *)
Record NotificationData := {
  d_userId : string;
  d_itemId : string;
  d_itemName : string;
  d_category : string;
  d_notificationType : string;
  d_scheduledDate : Instant;
  d_userContact : UserContact;
  d_reminderDaysBefore : option Z
}.

(** A document of [scheduledPushNotifications],
    [scheduledEmailNotifications] or [scheduledSMSNotifications]. *)
Record Notification := {
  userId : string;
  itemId : string;
  itemName : string;
  category : string;
  notificationType : string;
  scheduledDate : Instant;
  userContact : UserContact;
  reminderDaysBefore : Z;
  status : Status;
  createdAt : Instant;
  attempts : nat;
  maxAttempts : nat;
  processedAt : option Instant;
  sentAt : option Instant;
  failedAt : option Instant;
  cancelledAt : option Instant;
  lastAttempt : option Instant;
  lastError : option string
}.

(** [ProcessingResult]. *)
Record ProcessingResult := {
  processed : nat;
  successful : nat;
  failed : nat;
  errors : list string
}.

(** ** The Firestore collection *)

Record Collection := {
  docs : gmap positive Notification;
  nextId : positive
}.

Definition emptyCollection : Collection := {| docs := ∅; nextId := 1%positive |}.

(** [collection.add(doc)]: the store picks the id. *)
Definition add (doc : Notification) (c : Collection) : DocId * Collection :=
  (nextId c, {| docs := <[nextId c := doc]> (docs c); nextId := Pos.succ (nextId c) |}).

(** [doc(id).update(fields)]: the fields given are overwritten, the others kept. *)
Definition update (id : DocId) (fields : Notification → Notification) (c : Collection) : Collection :=
  {| docs := alter fields id (docs c); nextId := nextId c |}.

(** A write batch of updates, one per document of a snapshot. *)
Definition batchUpdate (fields : Notification → Notification)
    (snapshot : list (DocId * Notification)) (c : Collection) : Collection :=
  foldl (λ acc p, update p.1 fields acc) c snapshot.

(** A write batch of deletes. *)
Definition batchDelete (snapshot : list (DocId * Notification)) (c : Collection) : Collection :=
  foldl (λ acc p, {| docs := delete p.1 (docs acc); nextId := nextId acc |}) c snapshot.

(** [query.get()]: the documents that satisfy every [where] clause;
    [queryLimit] adds [.limit(n)].  The order of a snapshot is the store's. *)
Definition query (P : Notification → Prop) `{∀ n, Decision (P n)}
    (c : Collection) : list (DocId * Notification) :=
  filter (λ p, P p.2) (map_to_list (docs c)).

Definition queryLimit (P : Notification → Prop) `{∀ n, Decision (P n)}
    (limit : nat) (c : Collection) : list (DocId * Notification) :=
  take limit (query P c).

(** Ids below the allocation counter: what [add] keeps true. *)
Definition coll_wf (c : Collection) : Prop :=
  ∀ id n, docs c !! id = Some n → (id < nextId c)%positive.

(** The three collections. *)
Record Store := {
  scheduledPushNotifications : Collection;
  scheduledEmailNotifications : Collection;
  scheduledSMSNotifications : Collection
}.

Definition emptyStore : Store :=
  {| scheduledPushNotifications := emptyCollection;
     scheduledEmailNotifications := emptyCollection;
     scheduledSMSNotifications := emptyCollection |}.

Definition collection (ch : Channel) (s : Store) : Collection :=
  match ch with
  | Push => scheduledPushNotifications s
  | Email => scheduledEmailNotifications s
  | Sms => scheduledSMSNotifications s
  end.

Definition setCollection (ch : Channel) (c : Collection) (s : Store) : Store :=
  match ch with
  | Push => {| scheduledPushNotifications := c;
               scheduledEmailNotifications := scheduledEmailNotifications s;
               scheduledSMSNotifications := scheduledSMSNotifications s |}
  | Email => {| scheduledPushNotifications := scheduledPushNotifications s;
                scheduledEmailNotifications := c;
                scheduledSMSNotifications := scheduledSMSNotifications s |}
  | Sms => {| scheduledPushNotifications := scheduledPushNotifications s;
              scheduledEmailNotifications := scheduledEmailNotifications s;
              scheduledSMSNotifications := c |}
  end.

Definition store_wf (s : Store) : Prop := ∀ ch, coll_wf (collection ch s).

(** ** Channel services *)

(** The content handed to a transport: which reminder, for which item, for
    which date.  The rendering of titles and bodies is not needed here. *)
Inductive Template :=
| SubscriptionReminder (item : string) (date : Instant) (days : Z)
| LicenseExpirationReminder (item : string) (date : Instant) (days : Z)
| WarrantyExpirationReminder (item : string) (date : Instant) (days : Z)
| ItemReminder (item reminderType : string) (date : Instant).

(** One call made to a transport. *)
Inductive Delivery :=
| PushTo (token : string) (content : Template)
| EmailTo (address : string) (content : Template)
| SmsTo (number : string) (content : Template).

(** The transports of one dispatcher pass: [admin.messaging().send],
    Twilio's [messages.create], and the email service.  The email service
    ([services/emailService]) is not part of the sources at hand; it is a
    capability returning [Promise<boolean>] and is taken as given. *)
Record Transports := {
  fcm : string → Template → Settled unit;
  twilio : string → Template → Settled unit;
  emailService : string → Template → Settled bool
}.

Module PushNotificationService.

(** [try { await admin.messaging().send(message); return true }
     catch { return false }] *)
Definition sendPushNotification (tr : Transports) (token : string) (content : Template)
    : Settled bool * list Delivery :=
  (match fcm tr token content with
   | Fulfilled _ => Fulfilled true
   | Rejected _ => Fulfilled false
   end, [PushTo token content]).

Definition sendSubscriptionReminderPush tr token itemName renewalDate daysUntilRenewal :=
  sendPushNotification tr token (SubscriptionReminder itemName renewalDate daysUntilRenewal).

Definition sendLicenseExpirationReminderPush tr token softwareName expirationDate days :=
  sendPushNotification tr token (LicenseExpirationReminder softwareName expirationDate days).

Definition sendWarrantyExpirationReminderPush tr token hardwareName expirationDate days :=
  sendPushNotification tr token (WarrantyExpirationReminder hardwareName expirationDate days).

Definition sendItemReminderPush tr token itemName reminderType date :=
  sendPushNotification tr token (ItemReminder itemName reminderType date).

End PushNotificationService.

Module SMSService.

Definition isDigit (c : ascii) : bool :=
  (48 <=? nat_of_ascii c)%nat && (nat_of_ascii c <=? 57)%nat.

Definition isNonZeroDigit (c : ascii) : bool :=
  (49 <=? nat_of_ascii c)%nat && (nat_of_ascii c <=? 57)%nat.

(** [/^\+[1-9]\d{1,14}$/.test(phoneNumber)] *)
Definition isValidPhoneNumber (phoneNumber : string) : bool :=
  match phoneNumber with
  | String "+" (String d rest) =>
      isNonZeroDigit d
      && forallb isDigit (list_ascii_of_string rest)
      && (1 <=? String.length rest)%nat && (String.length rest <=? 14)%nat
  | _ => false
  end.

Definition sendSMS (tr : Transports) (to : string) (message : Template)
    : Settled bool * list Delivery :=
  if negb (isValidPhoneNumber to) then (Fulfilled false, [])
  else (match twilio tr to message with
        | Fulfilled _ => Fulfilled true
        | Rejected _ => Fulfilled false
        end, [SmsTo to message]).

Definition sendSubscriptionReminderSMS tr phoneNumber itemName renewalDate days :=
  sendSMS tr phoneNumber (SubscriptionReminder itemName renewalDate days).

Definition sendLicenseExpirationReminderSMS tr phoneNumber softwareName expirationDate days :=
  sendSMS tr phoneNumber (LicenseExpirationReminder softwareName expirationDate days).

Definition sendWarrantyExpirationReminderSMS tr phoneNumber hardwareName expirationDate days :=
  sendSMS tr phoneNumber (WarrantyExpirationReminder hardwareName expirationDate days).

Definition sendItemReminderSMS tr phoneNumber itemName reminderType date :=
  sendSMS tr phoneNumber (ItemReminder itemName reminderType date).

End SMSService.

Module EmailService.

Definition send (tr : Transports) (to : string) (content : Template)
    : Settled bool * list Delivery :=
  (emailService tr to content, [EmailTo to content]).

Definition sendSubscriptionReminder tr to itemName date days :=
  send tr to (SubscriptionReminder itemName date days).

Definition sendLicenseExpirationReminder tr to itemName date days :=
  send tr to (LicenseExpirationReminder itemName date days).

Definition sendWarrantyExpirationReminder tr to itemName date days :=
  send tr to (WarrantyExpirationReminder itemName date days).

(** [sendEmail({to, subject, html})] with the generic reminder text. *)
Definition sendEmail tr to notificationType itemName date :=
  send tr to (ItemReminder itemName notificationType date).

End EmailService.

(** ** Field updates written by the engine *)

(** [{ status: 'processing', processedAt: serverTimestamp() }] *)
Definition markProcessing (t : Instant) (n : Notification) : Notification :=
  {| userId := userId n; itemId := itemId n; itemName := itemName n;
     category := category n; notificationType := notificationType n;
     scheduledDate := scheduledDate n; userContact := userContact n;
     reminderDaysBefore := reminderDaysBefore n;
     status := Processing;
     createdAt := createdAt n; attempts := attempts n; maxAttempts := maxAttempts n;
     processedAt := Some t;
     sentAt := sentAt n; failedAt := failedAt n; cancelledAt := cancelledAt n;
     lastAttempt := lastAttempt n; lastError := lastError n |}.

(** [{ status: 'sent', sentAt: serverTimestamp(), lastAttempt: serverTimestamp() }] *)
Definition markSent (t : Instant) (n : Notification) : Notification :=
  {| userId := userId n; itemId := itemId n; itemName := itemName n;
     category := category n; notificationType := notificationType n;
     scheduledDate := scheduledDate n; userContact := userContact n;
     reminderDaysBefore := reminderDaysBefore n;
     status := Sent;
     createdAt := createdAt n; attempts := attempts n; maxAttempts := maxAttempts n;
     processedAt := processedAt n;
     sentAt := Some t;
     failedAt := failedAt n; cancelledAt := cancelledAt n;
     lastAttempt := Some t; lastError := lastError n |}.

(** [{ status: 'failed', attempts, lastError: errorMessage,
       failedAt: serverTimestamp(), lastAttempt: serverTimestamp() }] *)
Definition markFailed (attempts' : nat) (errorMessage : string) (t : Instant)
    (n : Notification) : Notification :=
  {| userId := userId n; itemId := itemId n; itemName := itemName n;
     category := category n; notificationType := notificationType n;
     scheduledDate := scheduledDate n; userContact := userContact n;
     reminderDaysBefore := reminderDaysBefore n;
     status := Failed;
     createdAt := createdAt n; attempts := attempts'; maxAttempts := maxAttempts n;
     processedAt := processedAt n; sentAt := sentAt n;
     failedAt := Some t;
     cancelledAt := cancelledAt n;
     lastAttempt := Some t; lastError := Some errorMessage |}.

(** [{ status: 'scheduled', attempts, lastError: errorMessage,
       scheduledDate: Timestamp.fromDate(retryDate), lastAttempt: serverTimestamp() }] *)
Definition markRetry (attempts' : nat) (errorMessage : string) (retryDate t : Instant)
    (n : Notification) : Notification :=
  {| userId := userId n; itemId := itemId n; itemName := itemName n;
     category := category n; notificationType := notificationType n;
     scheduledDate := retryDate;
     userContact := userContact n;
     reminderDaysBefore := reminderDaysBefore n;
     status := Scheduled;
     createdAt := createdAt n; attempts := attempts'; maxAttempts := maxAttempts n;
     processedAt := processedAt n; sentAt := sentAt n; failedAt := failedAt n;
     cancelledAt := cancelledAt n;
     lastAttempt := Some t; lastError := Some errorMessage |}.

(** [{ status: 'cancelled', cancelledAt: serverTimestamp() }] *)
Definition markCancelled (t : Instant) (n : Notification) : Notification :=
  {| userId := userId n; itemId := itemId n; itemName := itemName n;
     category := category n; notificationType := notificationType n;
     scheduledDate := scheduledDate n; userContact := userContact n;
     reminderDaysBefore := reminderDaysBefore n;
     status := Cancelled;
     createdAt := createdAt n; attempts := attempts n; maxAttempts := maxAttempts n;
     processedAt := processedAt n; sentAt := sentAt n; failedAt := failedAt n;
     cancelledAt := Some t;
     lastAttempt := lastAttempt n; lastError := lastError n |}.

(** [d.setMinutes(d.getMinutes() + k)] for a whole number [k] of minutes
    (the functions run in UTC). *)
Definition addMinutes (d : Instant) (k : Z) : Instant := (d + k * 60000)%Z.

(** [Math.pow(2, attempts) * 5] *)
Definition backoffMinutes (attempts' : nat) : Z := (2 ^ Z.of_nat attempts' * 5)%Z.

(** [d.setDate(d.getDate() - k)] *)
Definition subDays (d : Instant) (k : Z) : Instant := (d - k * 86400000)%Z.

(** ** Scheduler (write path) *)

(** The document built by [scheduleXNotification]. *)
Definition notificationDoc (created : Instant) (data : NotificationData) : Notification :=
  {| userId := d_userId data; itemId := d_itemId data; itemName := d_itemName data;
     category := d_category data; notificationType := d_notificationType data;
     scheduledDate := d_scheduledDate data;
     userContact := d_userContact data;
     reminderDaysBefore := or_Z (d_reminderDaysBefore data) 7;
     status := Scheduled;
     createdAt := created;
     attempts := 0; maxAttempts := 3;
     processedAt := None; sentAt := None; failedAt := None; cancelledAt := None;
     lastAttempt := None; lastError := None |}.

(** The body shared by the three [scheduleXNotification] functions:
    validate, build the document, add it; a validation error is rethrown
    and nothing is stored.  [now] is the clock read by the validation,
    [created] the server timestamp.  The date of the document is
    [Timestamp.fromDate(data.scheduledDate)], taken to return: this is the
    body for a date within [inTimestampRange] (for a date beyond it the
    conversion throws, the error is rethrown and nothing is stored). *)
Definition scheduleWith (validate : Instant → NotificationData → Outcome unit)
    (now created : Instant) (data : NotificationData) (c : Collection)
    : Outcome DocId * Collection :=
  match validate now data with
  | Threw e => (Threw e, c)
  | Returned _ =>
      let '(id, c') := add (notificationDoc created data) c in (Returned id, c')
  end.

(** ** Dispatcher (read and execute path) *)

(** The clock reads of one pass. *)
Record PassClock := {
  p_now : Instant;               (* Timestamp.now() of the due-work query *)
  claimedAt : Instant;           (* server time of the claiming batch *)
  retryNow : DocId → Instant;    (* new Date() when a record's retry date is computed *)
  writtenAt : DocId → Instant    (* server time of the update that settles a record *)
}.

(** [.where('status','==','scheduled').where('scheduledDate','<=',now)] *)
Definition isDue (now : Instant) (n : Notification) : Prop :=
  status n = Scheduled ∧ (scheduledDate n ≤ now)%Z.

#[global] Instance isDue_dec now n : Decision (isDue now n).
Proof. unfold isDue. apply _. Defined.

Definition dueWork (now : Instant) (c : Collection) : list (DocId * Notification) :=
  queryLimit (isDue now) 100 c.

Definition emptyResult : ProcessingResult :=
  {| processed := 0; successful := 0; failed := 0; errors := [] |}.

Definition countSuccess (r : ProcessingResult) : ProcessingResult :=
  {| processed := processed r; successful := S (successful r);
     failed := failed r; errors := errors r |}.

Definition countFailure (e : string) (r : ProcessingResult) : ProcessingResult :=
  {| processed := processed r; successful := successful r;
     failed := S (failed r); errors := errors r ++ [e] |}.

(** The state threaded through the loop over the claimed notifications. *)
Record PassState := {
  ps_collection : Collection;
  ps_result : ProcessingResult;
  ps_log : list Delivery
}.

(** The body of [for (const notification of notifications)]: [notification]
    is the snapshot taken before the claim.  The retry date is written as
    [Timestamp.fromDate(retryDate)], taken to return: this is the body for a
    retry date within [inTimestampRange] (for a date beyond it the conversion
    throws inside the [catch] block, which ends the pass with the record and
    those after it still [processing]). *)
Definition settle (send : Transports → Notification → Outcome unit * list Delivery)
    (clk : PassClock) (tr : Transports) (st : PassState) (p : DocId * Notification) : PassState :=
  let '(id, notification) := p in
  match send tr notification with
  | (Returned _, calls) =>
      {| ps_collection := update id (markSent (writtenAt clk id)) (ps_collection st);
         ps_result := countSuccess (ps_result st);
         ps_log := ps_log st ++ calls |}
  | (Threw errorMessage, calls) =>
      let attempts' := or_nat (attempts notification) 0 + 1 in
      let maxAttempts' := or_nat (maxAttempts notification) 3 in
      let result' := countFailure (itemName notification +:+ ": " +:+ errorMessage) (ps_result st) in
      if (maxAttempts' <=? attempts')%nat then
        {| ps_collection :=
             update id (markFailed attempts' errorMessage (writtenAt clk id)) (ps_collection st);
           ps_result := result';
           ps_log := ps_log st ++ calls |}
      else
        let retryDate := addMinutes (retryNow clk id) (backoffMinutes attempts') in
        {| ps_collection :=
             update id (markRetry attempts' errorMessage retryDate (writtenAt clk id))
               (ps_collection st);
           ps_result := result';
           ps_log := ps_log st ++ calls |}
  end.

(** The body shared by the three [processScheduledXNotifications]. *)
Definition processWith (send : Transports → Notification → Outcome unit * list Delivery)
    (clk : PassClock) (tr : Transports) (c : Collection) : PassState :=
  let snapshot := dueWork (p_now clk) c in
  match snapshot with
  | [] => {| ps_collection := c; ps_result := emptyResult; ps_log := [] |}
  | _ :: _ =>
      foldl (settle send clk tr)
        {| ps_collection := batchUpdate (markProcessing (claimedAt clk)) snapshot c;
           ps_result := {| processed := length snapshot; successful := 0;
                           failed := 0; errors := [] |};
           ps_log := [] |}
        snapshot
  end.

(** ** Cancellation *)

(** The owner filter is added only when [userId] is truthy. *)
Definition ownerFilter (userId' : option string) : option string :=
  match userId' with
  | Some u => if truthy u then Some u else None
  | None => None
  end.

(** [.where('itemId','==',itemId).where('status','==','scheduled')] and,
    with an owner, [.where('userId','==',userId)]. *)
Definition matchesSubject (itemId' : string) (userId' : option string) (n : Notification) : Prop :=
  itemId n = itemId' ∧ status n = Scheduled ∧
  match ownerFilter userId' with Some u => userId n = u | None => True end.

#[global] Instance matchesSubject_dec i u n : Decision (matchesSubject i u n).
Proof. unfold matchesSubject. destruct (ownerFilter u); apply _. Defined.

(** The body shared by the three [cancelXNotifications]; [t] is the server
    time of the batch. *)
Definition cancelIn (t : Instant) (itemId' : string) (userId' : option string)
    (c : Collection) : nat * Collection :=
  let snapshot := query (matchesSubject itemId' userId') c in
  match snapshot with
  | [] => (0, c)
  | _ :: _ => (length snapshot, batchUpdate (markCancelled t) snapshot c)
  end.

(** ** The three scheduler modules *)

Module PushScheduler.

(** The source also tests [!data.scheduledDate]; [scheduledDate] is a [Date]
    object, which is never falsy, so the test has no case here (and likewise
    in the other two schedulers). *)
Definition validateNotificationData (now : Instant) (data : NotificationData) : Outcome unit :=
  if negb (truthy (d_userId data)) then Threw "userId is required"
  else if negb (truthy (d_itemId data)) then Threw "itemId is required"
  else if negb (truthy (d_itemName data)) then Threw "itemName is required"
  else if (d_scheduledDate data <=? now)%Z then Threw "scheduledDate must be in the future"
  else match fcmTokens (d_userContact data) with
       | Some (_ :: _) => Returned tt
       | _ => Threw "At least one FCM token is required"
       end.

Definition schedulePushNotification := scheduleWith validateNotificationData.

(** The promise built for one token: the service call chosen by
    [category], with a rejection rethrown as [Push: <message>]. *)
Definition pushPromise (tr : Transports) (n : Notification) (token : string)
    : Settled bool * list Delivery :=
  let '(r, calls) :=
    if String.eqb (category n) "subscription" then
      PushNotificationService.sendSubscriptionReminderPush tr token
        (itemName n) (scheduledDate n) (reminderDaysBefore n)
    else if String.eqb (category n) "software" then
      PushNotificationService.sendLicenseExpirationReminderPush tr token
        (itemName n) (scheduledDate n) (reminderDaysBefore n)
    else if String.eqb (category n) "hardware" then
      PushNotificationService.sendWarrantyExpirationReminderPush tr token
        (itemName n) (scheduledDate n) (reminderDaysBefore n)
    else
      PushNotificationService.sendItemReminderPush tr token
        (itemName n) (notificationType n) (scheduledDate n) in
  (match r with
   | Fulfilled b => Fulfilled b
   | Rejected e => Rejected ("Push: " +:+ e)
   end, calls).

Definition rejectionMessage {A} (r : Settled A) : option string :=
  match r with Fulfilled _ => None | Rejected e => Some e end.

Definition sendPushNotification (tr : Transports) (n : Notification)
    : Outcome unit * list Delivery :=
  match fcmTokens (userContact n) with
  | Some (token :: tokens) =>
      let settled := map (pushPromise tr n) (token :: tokens) in
      let results := map fst settled in
      let calls := concat (map snd settled) in
      let hasSuccess := existsb isFulfilled results in
      let errors := omap rejectionMessage results in
      if negb hasSuccess && (0 <? length errors)%nat then
        (Threw ("All push notifications failed: " +:+ join ", " errors), calls)
      else (Returned tt, calls)
  | _ => (Returned tt, [])
  end.

Definition processScheduledPushNotifications := processWith sendPushNotification.

Definition cancelPushNotifications := cancelIn.

End PushScheduler.

Module EmailScheduler.

Definition validateNotificationData (now : Instant) (data : NotificationData) : Outcome unit :=
  if negb (truthy (d_userId data)) then Threw "userId is required"
  else if negb (truthy (d_itemId data)) then Threw "itemId is required"
  else if negb (truthy (d_itemName data)) then Threw "itemName is required"
  else if (d_scheduledDate data <=? now)%Z then Threw "scheduledDate must be in the future"
  else if negb (truthy_opt (email (d_userContact data))) then Threw "Email is required"
  else Returned tt.

Definition scheduleEmailNotification := scheduleWith validateNotificationData.

Definition sendEmailNotification (tr : Transports) (n : Notification)
    : Outcome unit * list Delivery :=
  if negb (truthy_opt (email (userContact n))) then (Returned tt, [])
  else
    let to := default "" (email (userContact n)) in
    let '(emailPromise, calls) :=
      if String.eqb (category n) "subscription" then
        EmailService.sendSubscriptionReminder tr to
          (itemName n) (scheduledDate n) (reminderDaysBefore n)
      else if String.eqb (category n) "software" then
        EmailService.sendLicenseExpirationReminder tr to
          (itemName n) (scheduledDate n) (reminderDaysBefore n)
      else if String.eqb (category n) "hardware" then
        EmailService.sendWarrantyExpirationReminder tr to
          (itemName n) (scheduledDate n) (reminderDaysBefore n)
      else
        EmailService.sendEmail tr to (notificationType n) (itemName n) (scheduledDate n) in
    match emailPromise with
    | Rejected e => (Threw ("Email: " +:+ e), calls)
    | Fulfilled false =>
        (Threw ("Email failed for " +:+ itemName n +:+ ": No response from email service"),
         calls)
    | Fulfilled true => (Returned tt, calls)
    end.

Definition processScheduledEmailNotifications := processWith sendEmailNotification.

Definition cancelEmailNotifications := cancelIn.

End EmailScheduler.

Module SmsScheduler.

Definition validateNotificationData (now : Instant) (data : NotificationData) : Outcome unit :=
  if negb (truthy (d_userId data)) then Threw "userId is required"
  else if negb (truthy (d_itemId data)) then Threw "itemId is required"
  else if negb (truthy (d_itemName data)) then Threw "itemName is required"
  else if (d_scheduledDate data <=? now)%Z then Threw "scheduledDate must be in the future"
  else if negb (truthy_opt (phone (d_userContact data))) then Threw "Phone number is required"
  else Returned tt.

Definition scheduleSMSNotification := scheduleWith validateNotificationData.

Definition sendSMSNotification (tr : Transports) (n : Notification)
    : Outcome unit * list Delivery :=
  if negb (truthy_opt (phone (userContact n))) then (Returned tt, [])
  else
    let to := default "" (phone (userContact n)) in
    let '(smsPromise, calls) :=
      if String.eqb (category n) "subscription" then
        SMSService.sendSubscriptionReminderSMS tr to
          (itemName n) (scheduledDate n) (reminderDaysBefore n)
      else if String.eqb (category n) "software" then
        SMSService.sendLicenseExpirationReminderSMS tr to
          (itemName n) (scheduledDate n) (reminderDaysBefore n)
      else if String.eqb (category n) "hardware" then
        SMSService.sendWarrantyExpirationReminderSMS tr to
          (itemName n) (scheduledDate n) (reminderDaysBefore n)
      else
        SMSService.sendItemReminderSMS tr to (itemName n) (notificationType n) (scheduledDate n) in
    match smsPromise with
    | Rejected e => (Threw ("SMS: " +:+ e), calls)
    | Fulfilled false =>
        (Threw ("SMS failed for " +:+ itemName n +:+ ": No response from SMS service"), calls)
    | Fulfilled true => (Returned tt, calls)
    end.

Definition processScheduledSMSNotifications := processWith sendSMSNotification.

Definition cancelSMSNotifications := cancelIn.

End SmsScheduler.

(** ** Callable entry points ([index.ts]) *)

Inductive ErrorCode := InvalidArgument | Internal.

(** What a callable returns: its response, or the [HttpsError] it throws. *)
Inductive CallResult (A : Type) : Type :=
| Response (body : A)
| HttpsError (code : ErrorCode) (message : string).
Arguments Response {A} body.
Arguments HttpsError {A} code message.

(** [userPreferences]: the truthiness of each flag. *)
Record Preferences := {
  pref_email : bool;
  pref_sms : bool;
  pref_push : bool
}.

(** [request.data] of [scheduleItemNotification].  Every field may be
    absent.  [r_scheduledDate] is [None] when the field is falsy and
    [Some t] when [new Date(scheduledDate)] is the instant [t]. *)
Record ScheduleRequest := {
  r_userId : option string;
  r_itemId : option string;
  r_itemName : option string;
  r_category : option string;
  r_notificationType : option string;
  r_scheduledDate : option Instant;
  r_userPreferences : option Preferences;
  r_userContact : option UserContact;
  r_reminderDaysBefore : option Z
}.

(** The clock reads of one [scheduleItemNotification] call: the check of
    the handler, then per channel the check of the scheduler and the server
    time of the write. *)
Record RequestClock := {
  requestedAt : Instant;
  validatedAt : Channel → Instant;
  storedAt : Channel → Instant
}.

(** [scheduledIds] *)
Record ScheduledIds := {
  id_push : option DocId;
  id_email : option DocId;
  id_sms : option DocId
}.

Definition defaultPreferences : Preferences :=
  {| pref_email := true; pref_sms := false; pref_push := false |}.

Definition noContact : UserContact :=
  {| fcmTokens := None; email := None; phone := None |}.

(** [contact.fcmTokens && contact.fcmTokens.length > 0] *)
Definition hasTokens (contact : UserContact) : bool :=
  match fcmTokens contact with Some (_ :: _) => true | _ => false end.

(** Whether the handler calls the scheduler of a channel. *)
Definition eligible (preferences : Preferences) (contact : UserContact) (ch : Channel) : bool :=
  match ch with
  | Push => pref_push preferences && hasTokens contact
  | Email => pref_email preferences && truthy_opt (email contact)
  | Sms => pref_sms preferences && truthy_opt (phone contact)
  end.

Definition channelContact (contact : UserContact) (ch : Channel) : UserContact :=
  match ch with
  | Push => {| fcmTokens := fcmTokens contact; email := None; phone := None |}
  | Email => {| fcmTokens := None; email := email contact; phone := None |}
  | Sms => {| fcmTokens := None; email := None; phone := phone contact |}
  end.

Definition scheduleOn (ch : Channel) :=
  match ch with
  | Push => PushScheduler.schedulePushNotification
  | Email => EmailScheduler.scheduleEmailNotification
  | Sms => SmsScheduler.scheduleSMSNotification
  end.

(** The argument of the scheduler call for a channel. *)
Definition requestData (req : ScheduleRequest) (date : Instant) (contact : UserContact)
    (ch : Channel) : NotificationData :=
  {| d_userId := default "" (r_userId req);
     d_itemId := default "" (r_itemId req);
     d_itemName := default "" (r_itemName req);
     d_category := or_string (r_category req) "general";
     d_notificationType := or_string (r_notificationType req) "reminder";
     d_scheduledDate := date;
     d_userContact := channelContact contact ch;
     d_reminderDaysBefore := Some (or_Z (r_reminderDaysBefore req) 7) |}.

(** One [if (preferences.x && contact.x) promises.push(scheduleX(...))]:
    [None] when no promise is pushed. *)
Definition fanOut (clk : RequestClock) (req : ScheduleRequest) (date : Instant)
    (preferences : Preferences) (contact : UserContact) (ch : Channel) (s : Store)
    : option (Outcome DocId) * Store :=
  if eligible preferences contact ch then
    let '(r, c) := scheduleOn ch (validatedAt clk ch) (storedAt clk ch)
                     (requestData req date contact ch) (collection ch s) in
    (Some r, setCollection ch c s)
  else (None, s).

Definition fulfilledId (r : option (Outcome DocId)) : option DocId :=
  match r with Some (Returned id) => Some id | _ => None end.

Definition rejected (r : option (Outcome DocId)) : bool :=
  match r with Some (Threw _) => true | _ => false end.

Definition scheduleItemNotification (clk : RequestClock) (req : ScheduleRequest) (s : Store)
    : CallResult ScheduledIds * Store :=
  match r_scheduledDate req with
  | Some scheduleDateTime =>
      if negb (truthy_opt (r_userId req)) || negb (truthy_opt (r_itemId req))
         || negb (truthy_opt (r_itemName req)) then
        (HttpsError InvalidArgument
           "Missing required parameters: userId, itemId, itemName, scheduledDate", s)
      else if (scheduleDateTime <=? requestedAt clk)%Z then
        (HttpsError InvalidArgument "Scheduled date must be in the future", s)
      else
        let preferences := default defaultPreferences (r_userPreferences req) in
        let contact := default noContact (r_userContact req) in
        let '(pPush, s1) := fanOut clk req scheduleDateTime preferences contact Push s in
        let '(pEmail, s2) := fanOut clk req scheduleDateTime preferences contact Email s1 in
        let '(pSms, s3) := fanOut clk req scheduleDateTime preferences contact Sms s2 in
        match pPush, pEmail, pSms with
        | None, None, None =>
            (HttpsError InvalidArgument
               "No valid notification preferences or contact details provided", s3)
        | _, _, _ =>
            if rejected pPush || rejected pEmail || rejected pSms then
              (HttpsError Internal "Failed to schedule notification", s3)
            else
              (Response {| id_push := fulfilledId pPush;
                           id_email := fulfilledId pEmail;
                           id_sms := fulfilledId pSms |}, s3)
        end
  | None =>
      (HttpsError InvalidArgument
         "Missing required parameters: userId, itemId, itemName, scheduledDate", s)
  end.

(** [cancelNotifications]: the response's [cancelledCount].  [t] gives the
    server time of each channel's batch. *)
Definition cancelNotifications (t : Channel → Instant) (itemId' userId' : option string)
    (s : Store) : CallResult nat * Store :=
  if negb (truthy_opt itemId') then (HttpsError InvalidArgument "itemId is required", s)
  else
    let item := default "" itemId' in
    let '(nPush, cPush) :=
      PushScheduler.cancelPushNotifications (t Push) item userId' (scheduledPushNotifications s) in
    let '(nEmail, cEmail) :=
      EmailScheduler.cancelEmailNotifications (t Email) item userId' (scheduledEmailNotifications s) in
    let '(nSms, cSms) :=
      SmsScheduler.cancelSMSNotifications (t Sms) item userId' (scheduledSMSNotifications s) in
    (Response (0 + nPush + nEmail + nSms),
     {| scheduledPushNotifications := cPush;
        scheduledEmailNotifications := cEmail;
        scheduledSMSNotifications := cSms |}).

(** ** Retention sweeper *)

(** [.where('status','in',['sent','failed']).where('processedAt','<',cutoff)] *)
Definition isStale (cutoff : Instant) (n : Notification) : Prop :=
  (status n = Sent ∨ status n = Failed) ∧
  match processedAt n with Some t => (t < cutoff)%Z | None => False end.

#[global] Instance isStale_dec cutoff n : Decision (isStale cutoff n).
Proof. unfold isStale. destruct (processedAt n); apply _. Defined.

(** The body of the loop over the collections: the number deleted and the
    collection left. *)
Definition cleanupCollection (cutoff : Instant) (c : Collection) : nat * Collection :=
  let snapshot := queryLimit (isStale cutoff) 500 c in
  match snapshot with
  | [] => (0, c)
  | _ :: _ => (length snapshot, batchDelete snapshot c)
  end.

(** [cleanupOldNotifications]: [totalCleaned] and the store left. *)
Definition cleanupOldNotifications (now : Instant) (s : Store) : nat * Store :=
  let cutoffDate := subDays now 30 in
  let '(nPush, cPush) := cleanupCollection cutoffDate (scheduledPushNotifications s) in
  let '(nEmail, cEmail) := cleanupCollection cutoffDate (scheduledEmailNotifications s) in
  let '(nSms, cSms) := cleanupCollection cutoffDate (scheduledSMSNotifications s) in
  (0 + nPush + nEmail + nSms,
   {| scheduledPushNotifications := cPush;
      scheduledEmailNotifications := cEmail;
      scheduledSMSNotifications := cSms |}).

(** ** Sequences of operations *)

Definition sendOn (ch : Channel) : Transports → Notification → Outcome unit * list Delivery :=
  match ch with
  | Push => PushScheduler.sendPushNotification
  | Email => EmailScheduler.sendEmailNotification
  | Sms => SmsScheduler.sendSMSNotification
  end.

(** The dispatcher of a channel, on the store. *)
Definition dispatch (ch : Channel) (clk : PassClock) (tr : Transports) (s : Store) : Store :=
  setCollection ch (ps_collection (processWith (sendOn ch) clk tr (collection ch s))) s.

(** One operation on the store, with the clock reads and transports it
    meets. *)
Inductive Op :=
| OpSchedule (ch : Channel) (now created : Instant) (data : NotificationData)
| OpRequest (clk : RequestClock) (req : ScheduleRequest)
| OpDispatch (ch : Channel) (clk : PassClock) (tr : Transports)
| OpCancel (ch : Channel) (t : Instant) (itemId' : string) (userId' : option string)
| OpCancelNotifications (t : Channel → Instant) (itemId' userId' : option string)
| OpCleanup (now : Instant).

Definition step (s : Store) (op : Op) : Store :=
  match op with
  | OpSchedule ch now created data =>
      setCollection ch (scheduleOn ch now created data (collection ch s)).2 s
  | OpRequest clk req => (scheduleItemNotification clk req s).2
  | OpDispatch ch clk tr => dispatch ch clk tr s
  | OpCancel ch t i u => setCollection ch (cancelIn t i u (collection ch s)).2 s
  | OpCancelNotifications t i u => (cancelNotifications t i u s).2
  | OpCleanup now => (cleanupOldNotifications now s).2
  end.

Definition run (ops : list Op) (s : Store) : Store := foldl step s ops.

(** ** Notions used by the statements *)

(** The limit the dispatcher compares with: [notification.maxAttempts || 3]. *)
Definition attemptLimit (n : Notification) : nat := or_nat (maxAttempts n) 3.

(** [c'] is [c] with exactly one more document, [n]. *)
Definition createdOne (n : Notification) (c c' : Collection) : Prop :=
  ∃ id, docs c !! id = None ∧ docs c' = <[id := n]> (docs c).

(** The update that ends the processing of a claimed record. *)
Definition settlement (send : Transports → Notification → Outcome unit * list Delivery)
    (clk : PassClock) (tr : Transports) (p : DocId * Notification) : Notification → Notification :=
  match (send tr p.2).1 with
  | Returned _ => markSent (writtenAt clk p.1)
  | Threw e =>
      if (attemptLimit p.2 <=? attempts p.2 + 1)%nat then
        markFailed (attempts p.2 + 1) e (writtenAt clk p.1)
      else
        markRetry (attempts p.2 + 1) e
          (addMinutes (retryNow clk p.1) (backoffMinutes (attempts p.2 + 1)))
          (writtenAt clk p.1)
  end.

(** Whether the sender returned for a claimed record. *)
Definition delivered (send : Transports → Notification → Outcome unit * list Delivery)
    (tr : Transports) (p : DocId * Notification) : bool :=
  match (send tr p.2).1 with Returned _ => true | Threw _ => false end.

(** A series of single-document updates. *)
Definition updateEach (g : DocId * Notification → Notification → Notification)
    (l : list (DocId * Notification)) (c : Collection) : Collection :=
  foldl (λ acc p, update p.1 (g p) acc) c l.

(** What one operation can do to a stored record, seen between operations:
    a record is only ever moved out of [scheduled], by a cancellation or by
    a dispatcher pass that claims and settles it. *)
Inductive transition : Notification → Notification → Prop :=
| transition_cancelled t n :
    status n = Scheduled → transition n (markCancelled t n)
| transition_sent t0 t n :
    status n = Scheduled → transition n (markSent t (markProcessing t0 n))
| transition_failed t0 t e n :
    status n = Scheduled → attemptLimit n ≤ attempts n + 1 →
    transition n (markFailed (attempts n + 1) e t (markProcessing t0 n))
| transition_retry t0 t e d n :
    status n = Scheduled → attempts n + 1 < attemptLimit n →
    transition n (markRetry (attempts n + 1) e d t (markProcessing t0 n)).

(** What one operation can do to a collection: every record of [c'] is a
    record of [c], kept or moved by one transition, or a document created
    under an id that [c] had not yet allocated. *)
Definition evolves (c c' : Collection) : Prop :=
  (nextId c ≤ nextId c')%positive ∧
  ∀ id n', docs c' !! id = Some n' →
    (∃ n, docs c !! id = Some n ∧ (n' = n ∨ transition n n'))
    ∨ ((nextId c ≤ id)%positive ∧ (id < nextId c')%positive
       ∧ ∃ created data, n' = notificationDoc created data).

(** The counters of a record are in range. *)
Definition attemptsInRange (n : Notification) : Prop :=
  0 < maxAttempts n ∧ attempts n ≤ maxAttempts n
  ∧ (status n = Scheduled → attempts n < maxAttempts n).

Definition store_inRange (s : Store) : Prop :=
  ∀ ch id n, docs (collection ch s) !! id = Some n → attemptsInRange n.

(** The entry of [scheduledIds] for a channel. *)
Definition scheduledId (ch : Channel) (ids : ScheduledIds) : option DocId :=
  match ch with
  | Push => id_push ids
  | Email => id_email ids
  | Sms => id_sms ids
  end.

(** The base fields of a request are present and its date passes every
    check made during the call. *)
Definition validRequest (clk : RequestClock) (req : ScheduleRequest) (date : Instant) : Prop :=
  truthy_opt (r_userId req) = true
  ∧ truthy_opt (r_itemId req) = true
  ∧ truthy_opt (r_itemName req) = true
  ∧ r_scheduledDate req = Some date
  ∧ (requestedAt clk < date)%Z
  ∧ ∀ ch, (validatedAt clk ch < date)%Z.

(** The instants [Timestamp.fromDate] converts: the whole seconds of a
    Firestore [Timestamp] lie within [-62135596800, 253402300799], from
    0001-01-01T00:00:00Z to 9999-12-31T23:59:59Z; for any other instant the
    conversion throws. *)
Definition inTimestampRange (date : Instant) : Prop :=
  (-62135596800 ≤ date / 1000 ≤ 253402300799)%Z.

#[global] Instance inTimestampRange_dec date : Decision (inTimestampRange date).
Proof. unfold inTimestampRange. apply _. Defined.

(** The retry date of a claimed record, should its send fail short of the
    limit, is an instant [Timestamp.fromDate] converts. *)
Definition retryInRange (send : Transports → Notification → Outcome unit * list Delivery)
    (clk : PassClock) (tr : Transports) (p : DocId * Notification) : Prop :=
  delivered send tr p = false →
  attempts p.2 + 1 < attemptLimit p.2 →
  inTimestampRange (addMinutes (retryNow clk p.1) (backoffMinutes (attempts p.2 + 1))).

#[global] Instance retryInRange_dec send clk tr p : Decision (retryInRange send clk tr p).
Proof. unfold retryInRange. apply _. Defined.

(** No conversion of a retry date throws during the pass over [c]. *)
Definition retriesInRange (send : Transports → Notification → Outcome unit * list Delivery)
    (clk : PassClock) (tr : Transports) (c : Collection) : Prop :=
  Forall (retryInRange send clk tr) (dueWork (p_now clk) c).

#[global] Instance retriesInRange_dec send clk tr c : Decision (retriesInRange send clk tr c).
Proof. unfold retriesInRange. apply _. Defined.

(** The number of records of a collection that a cancellation of the
    subject [(itemId, userId)] addresses. *)
Definition matching (itemId' : string) (userId' : option string) (c : Collection) : nat :=
  size (filter (λ p : DocId * Notification, matchesSubject itemId' userId' p.2) (docs c)).

(** The number of records of a collection that the sweeper's query matches. *)
Definition staleCount (cutoff : Instant) (c : Collection) : nat :=
  size (filter (λ p : DocId * Notification, isStale cutoff p.2) (docs c)).

(** ** Sample data *)

Definition sampleContact : UserContact :=
  {| fcmTokens := Some ["device-1"; "device-2"];
     email := Some "owner@example.org";
     phone := Some "+14155550100" |}.

Definition sampleData (ch : Channel) : NotificationData :=
  {| d_userId := "u1"; d_itemId := "laptop"; d_itemName := "Laptop Warranty";
     d_category := "hardware"; d_notificationType := "warranty_expiration";
     d_scheduledDate := 1000%Z;
     d_userContact := channelContact sampleContact ch;
     d_reminderDaysBefore := None |}.

(** A collection holding one scheduled reminder, due at instant 1000. *)
Definition sampleCollection (ch : Channel) : Collection :=
  (scheduleOn ch 0%Z 1%Z (sampleData ch) emptyCollection).2.

Definition sampleStore : Store :=
  {| scheduledPushNotifications := sampleCollection Push;
     scheduledEmailNotifications := sampleCollection Email;
     scheduledSMSNotifications := sampleCollection Sms |}.

Definition sampleDoc (ch : Channel) : Notification := notificationDoc 1%Z (sampleData ch).

Definition sampleClock : PassClock :=
  {| p_now := 2000%Z; claimedAt := 2001%Z;
     retryNow := λ _, 2002%Z; writtenAt := λ _, 2003%Z |}.

(** Transports that refuse every message, and transports that accept all. *)
Definition transportsDown : Transports :=
  {| fcm := λ _ _, Rejected "unavailable";
     twilio := λ _ _, Rejected "unavailable";
     emailService := λ _ _, Fulfilled false |}.

Definition transportsUp : Transports :=
  {| fcm := λ _ _, Fulfilled tt;
     twilio := λ _ _, Fulfilled tt;
     emailService := λ _ _, Fulfilled true |}.

(** A reminder request for push and email, with all three contacts. *)
Definition sampleRequest : ScheduleRequest :=
  {| r_userId := Some "u1"; r_itemId := Some "laptop";
     r_itemName := Some "Laptop Warranty";
     r_category := Some "hardware"; r_notificationType := None;
     r_scheduledDate := Some 1000%Z;
     r_userPreferences := Some {| pref_email := true; pref_sms := false; pref_push := true |};
     r_userContact := Some sampleContact;
     r_reminderDaysBefore := None |}.

Definition sampleRequestClock : RequestClock :=
  {| requestedAt := 10%Z; validatedAt := λ _, 11%Z; storedAt := λ _, 12%Z |}.

(** A record sent long ago (claimed at instant 10), and a collection
    holding [k] such records. *)
Definition staleDoc : Notification :=
  markSent 20%Z (markProcessing 10%Z (sampleDoc Email)).

Definition crowded (k : nat) : Collection :=
  Nat.iter k (λ c, (add staleDoc c).2) emptyCollection.

(** A push record without device tokens, as a document of the collection. *)
Definition tokenlessDoc : Notification :=
  notificationDoc 1%Z
    {| d_userId := "u1"; d_itemId := "laptop"; d_itemName := "Laptop Warranty";
       d_category := "hardware"; d_notificationType := "warranty_expiration";
       d_scheduledDate := 1000%Z;
       d_userContact := {| fcmTokens := Some []; email := None; phone := None |};
       d_reminderDaysBefore := None |}.

Definition tokenlessCollection : Collection := (add tokenlessDoc emptyCollection).2.

(** An SMS request whose number is not in E.164 format. *)
Definition localNumberData : NotificationData :=
  {| d_userId := "u1"; d_itemId := "laptop"; d_itemName := "Laptop Warranty";
     d_category := "hardware"; d_notificationType := "warranty_expiration";
     d_scheduledDate := 1000%Z;
     d_userContact := {| fcmTokens := None; email := None; phone := Some "555-0100" |};
     d_reminderDaysBefore := None |}.

(** * Further functions of the engine *)

(** ** The test entry point ([index.ts]) *)



(** Whether [userContact] has the contact of a channel. *)
Definition contactable (contact : UserContact) (ch : Channel) : bool :=
  match ch with
  | Push => hasTokens contact
  | Email => truthy_opt (email contact)
  | Sms => truthy_opt (phone contact)
  end.




(** ** Listing ([getScheduledXNotifications], [getUserNotifications]) *)

(** The value of the [status] field as stored. *)
Definition statusName (st : Status) : string :=
  match st with
  | Scheduled => "scheduled"
  | Processing => "processing"
  | Sent => "sent"
  | Failed => "failed"
  | Cancelled => "cancelled"
  end.

(** The status filter is added only when [status] is truthy. *)
Definition statusFilter (status' : option string) : option string :=
  match status' with
  | Some st => if truthy st then Some st else None
  | None => None
  end.

(** [.where('userId','==',userId)] and, with a status,
    [.where('status','==',status)]. *)
Definition listedFor (userId' : string) (status' : option string) (n : Notification) : Prop :=
  userId n = userId' ∧
  match statusFilter status' with Some st => statusName (status n) = st | None => True end.

#[global] Instance listedFor_dec u st n : Decision (listedFor u st n).
Proof. unfold listedFor. destruct (statusFilter st); apply _. Defined.

(** A stable sort by descending key: an element is placed before the first
    one whose key is not greater, so that elements with equal keys keep their
    order.  This is what a stable sort with the comparator
    [(a, b) => key(b) - key(a)] produces. *)
Fixpoint insertDesc {A} (key : A → Z) (x : A) (l : list A) : list A :=
  match l with
  | [] => [x]
  | y :: r => if (key y <=? key x)%Z then x :: y :: r else y :: insertDesc key x r
  end.

Fixpoint sortDesc {A} (key : A → Z) (l : list A) : list A :=
  match l with
  | [] => []
  | x :: r => insertDesc key x (sortDesc key r)
  end.

(** The body shared by the three [getScheduledXNotifications]:
    [.orderBy('scheduledDate','desc').limit(limit)] over the filtered
    documents; documents with equal dates come in the store's order.  Each
    result stands for [{ id, ...doc.data() }]. *)
Definition getScheduledNotifications (userId' : string) (status' : option string)
    (limit : nat) (c : Collection) : list (DocId * Notification) :=
  take limit (sortDesc (λ p, scheduledDate p.2) (query (listedFor userId' status') c)).





(** ** Phone numbers and mail ([SMSService], [EmailService]) *)

(** [phoneNumber.replace(/\D/g, '')] *)
Definition digitsOf (phoneNumber : string) : string :=
  string_of_list_ascii (List.filter SMSService.isDigit (list_ascii_of_string phoneNumber)).

(** [phoneNumber.startsWith('+')] *)
Definition startsWithPlus (phoneNumber : string) : bool :=
  match phoneNumber with
  | String "+" _ => true
  | _ => false
  end.

(** [SMSService.formatPhoneNumber]; the default [countryCode] is ["+1"]. *)
Definition formatPhoneNumber (phoneNumber countryCode : string) : string :=
  let digits := digitsOf phoneNumber in
  if negb (startsWithPlus phoneNumber) then countryCode +:+ digits
  else phoneNumber.

(** Whether [">"] occurs in a string. *)
Fixpoint hasClosing (s : string) : bool :=
  match s with
  | EmptyString => false
  | String c r => if Ascii.eqb c ">" then true else hasClosing r
  end.

(** [html.replace(/<[^>]*>/g, '')]: a match starts at a ["<"] that has a
    [">"] somewhere after it and ends at the first such [">"].  [inTag]
    tells whether the scan is inside a match. *)
Fixpoint stripTagsFrom (inTag : bool) (html : string) : string :=
  match html with
  | EmptyString => EmptyString
  | String c r =>
      if inTag then
        if Ascii.eqb c ">" then stripTagsFrom false r else stripTagsFrom true r
      else if Ascii.eqb c "<" && hasClosing r then stripTagsFrom true r
      else String c (stripTagsFrom false r)
  end.

Definition stripTags (html : string) : string := stripTagsFrom false html.

(** [options.text || options.html.replace(/<[^>]*>/g, '')] *)
Definition mailText (text : option string) (html : string) : string :=
  match text with
  | Some t => if truthy t then t else stripTags html
  | None => stripTags html
  end.

(** [EmailService.sendEmail]:
    [try { await this.transporter.sendMail(mailOptions); return true }
     catch { return false }], over the mailer [sendMail]. *)
Definition sendEmailVia (sendMail : string → Template → Settled unit)
    (to : string) (content : Template) : Settled bool :=
  match sendMail to content with
  | Fulfilled _ => Fulfilled true
  | Rejected _ => Fulfilled false
  end.

(** Transports whose email service is [EmailService] over a mailer. *)
Definition withMailer (sendMail : string → Template → Settled unit) (tr : Transports)
    : Transports :=
  {| fcm := fcm tr; twilio := twilio tr; emailService := sendEmailVia sendMail |}.

(** The content a sender passes to its service, chosen by [category]. *)
Definition reminderContent (n : Notification) : Template :=
  if String.eqb (category n) "subscription" then
    SubscriptionReminder (itemName n) (scheduledDate n) (reminderDaysBefore n)
  else if String.eqb (category n) "software" then
    LicenseExpirationReminder (itemName n) (scheduledDate n) (reminderDaysBefore n)
  else if String.eqb (category n) "hardware" then
    WarrantyExpirationReminder (itemName n) (scheduledDate n) (reminderDaysBefore n)
  else ItemReminder (itemName n) (notificationType n) (scheduledDate n).

(** ** Item validation ([itemController.ts]) *)

(** The fields of [req.body] that [validateItemData] reads.  Dates and
    flags are read for their truthiness only. *)
Record SubscriptionDetails := {
  lastRenewalDate : option string;
  nextRenewalDate : option string;
  isRecurring : bool;
  renewalFrequency : option string
}.

Record SoftwareDetails := {
  licenseType : option string
}.

Record HardwareDetails := {
  condition : option string
}.

Record ItemBody := {
  b_name : option string;
  b_subscriptionDetails : option SubscriptionDetails;
  b_softwareDetails : option SoftwareDetails;
  b_hardwareDetails : option HardwareDetails
}.

(** [list.includes(x)] and [x === v] for an [x] that may be absent. *)
Definition includes (l : list string) (x : option string) : bool :=
  match x with
  | Some v => existsb (String.eqb v) l
  | None => false
  end.

Definition strictEq (x : option string) (v : string) : bool :=
  match x with
  | Some w => String.eqb w v
  | None => false
  end.

(** [if (b) errors.push(e)] *)
Definition pushIf (b : bool) (e : string) (errors : list string) : list string :=
  if b then errors ++ [e] else errors.

Definition validateItemData (body : ItemBody) (category' : option string) : list string :=
  let errors := [] in
  let errors := pushIf (negb (truthy_opt (b_name body))) "Name is required" errors in
  let errors :=
    pushIf (negb (includes ["hardware"; "software"; "subscription"] category'))
      "Invalid category" errors in
  let errors :=
    match b_subscriptionDetails body with
    | Some d =>
        if strictEq category' "subscription" then
          let errors :=
            pushIf (isRecurring d && negb (truthy_opt (renewalFrequency d)))
              "Renewal frequency is required for recurring subscriptions" errors in
          let errors :=
            pushIf (isRecurring d
                    && negb (includes ["monthly"; "yearly"; "weekly"; "custom"]
                               (renewalFrequency d)))
              "Invalid renewal frequency" errors in
          pushIf (negb (truthy_opt (lastRenewalDate d))
                  || negb (truthy_opt (nextRenewalDate d)))
            "Last and next renewal dates are required for subscriptions" errors
        else errors
    | None => errors
    end in
  let errors :=
    match b_softwareDetails body with
    | Some d =>
        if strictEq category' "software" then
          pushIf (truthy_opt (licenseType d)
                  && negb (includes ["lifetime"; "subscription"; "trial"; "open-source"]
                             (licenseType d)))
            "Invalid license type" errors
        else errors
    | None => errors
    end in
  match b_hardwareDetails body with
  | Some d =>
      if strictEq category' "hardware" then
        pushIf (truthy_opt (condition d)
                && negb (includes ["new"; "used"; "refurbished"] (condition d)))
          "Invalid condition" errors
      else errors
  | None => errors
  end.

(** ** Further notions used by the statements *)

(** What the scheduler of a channel checks. *)
Definition validData (ch : Channel) (now : Instant) (data : NotificationData) : bool :=
  truthy (d_userId data) && truthy (d_itemId data) && truthy (d_itemName data)
  && (now <? d_scheduledDate data)%Z && contactable (d_userContact data) ch.

(** No ["<"] of the string has a [">"] after it: the pattern
    [/<[^>]*>/] matches nowhere. *)
Fixpoint tagFree (s : string) : bool :=
  match s with
  | EmptyString => true
  | String c r => negb (Ascii.eqb c "<" && hasClosing r) && tagFree r
  end.

(** Sorted by descending key. *)
Definition descending {A} (key : A → Z) (l : list A) : Prop :=
  StronglySorted (λ a b, (key b ≤ key a)%Z) l.

(** * Properties *)

(** ** The store *)

Section Queries.
Context (P : Notification → Prop) `{!∀ n, Decision (P n)}.

Lemma elem_of_query c id n :
  (id, n) ∈ query P c ↔ P n ∧ docs c !! id = Some n.
Proof.
  unfold query. rewrite list_elem_of_filter, elem_of_map_to_list. done.
Qed.

Lemma query_NoDup c : NoDup (query P c).*1.
Proof.
  unfold query. apply (sublist_NoDup _ (map_to_list (docs c)).*1).
  - apply NoDup_fst_map_to_list.
  - apply fmap_sublist, sublist_filter.
Qed.

Lemma queryLimit_sublist k c : queryLimit P k c `sublist_of` query P c.
Proof. apply sublist_take. Qed.

Lemma elem_of_queryLimit k c id n :
  (id, n) ∈ queryLimit P k c → P n ∧ docs c !! id = Some n.
Proof.
  intros Hin. apply elem_of_query. eapply elem_of_sublist; [exact Hin|].
  apply queryLimit_sublist.
Qed.

Lemma queryLimit_NoDup k c : NoDup (queryLimit P k c).*1.
Proof.
  apply (sublist_NoDup _ (query P c).*1); [apply query_NoDup|].
  apply fmap_sublist, queryLimit_sublist.
Qed.

Lemma queryLimit_all (k : nat) c : length (query P c) ≤ k → queryLimit P k c = query P c.
Proof. intros Hle. unfold queryLimit. by apply take_ge. Qed.

Lemma queryLimit_length (k : nat) c : length (queryLimit P k c) = min k (length (query P c)).
Proof. apply length_take. Qed.

(** A snapshot holds at most one entry per id. *)
Lemma query_functional c id n n' :
  (id, n) ∈ query P c → (id, n') ∈ query P c → n = n'.
Proof. rewrite !elem_of_query. intros [_ H1] [_ H2]. congruence. Qed.
End Queries.

Lemma updateEach_nextId g l c : nextId (updateEach g l c) = nextId c.
Proof.
  revert c. induction l as [|p l IH]; intros c; [done|].
  unfold updateEach in *. simpl. by rewrite IH.
Qed.

Lemma updateEach_lookup_notin g l c id :
  id ∉ l.*1 → docs (updateEach g l c) !! id = docs c !! id.
Proof.
  revert c. induction l as [|p l IH]; intros c Hnot; [done|].
  rewrite fmap_cons, not_elem_of_cons in Hnot. destruct Hnot as [Hne Hnot].
  change (updateEach g (p :: l) c) with (updateEach g l (update p.1 (g p) c)).
  rewrite IH by done. simpl. by rewrite lookup_alter_ne.
Qed.

Lemma updateEach_lookup_in g l c id n :
  NoDup l.*1 → (id, n) ∈ l →
  docs (updateEach g l c) !! id = g (id, n) <$> docs c !! id.
Proof.
  revert c. induction l as [|p l IH]; intros c Hnd Hin; [by apply elem_of_nil in Hin|].
  rewrite fmap_cons, NoDup_cons in Hnd. destruct Hnd as [Hfresh Hnd].
  change (updateEach g (p :: l) c) with (updateEach g l (update p.1 (g p) c)).
  apply elem_of_cons in Hin as [<-|Hin].
  - rewrite updateEach_lookup_notin by done. simpl. by rewrite lookup_alter_eq.
  - rewrite IH by done. simpl. rewrite lookup_alter_ne; [done|].
    intros Heq. apply Hfresh. rewrite Heq.
    by apply (list_elem_of_fmap_2 fst l (id, n)).
Qed.

Lemma batchUpdate_updateEach f l c : batchUpdate f l c = updateEach (λ _, f) l c.
Proof. done. Qed.

Lemma batchDelete_nextId l c : nextId (batchDelete l c) = nextId c.
Proof.
  revert c. induction l as [|p l IH]; intros c; [done|].
  unfold batchDelete in *. simpl. by rewrite IH.
Qed.

Lemma batchDelete_lookup l c id :
  docs (batchDelete l c) !! id = if decide (id ∈ l.*1) then None else docs c !! id.
Proof.
  revert c. induction l as [|p l IH]; intros c.
  - rewrite decide_False by apply not_elem_of_nil. done.
  - change (batchDelete (p :: l) c)
      with (batchDelete l {| docs := delete p.1 (docs c); nextId := nextId c |}).
    rewrite IH, fmap_cons. cbn [docs].
    destruct (decide (id ∈ p.1 :: l.*1)) as [H1|H1];
      destruct (decide (id ∈ l.*1)) as [H2|H2]; try done.
    + apply elem_of_cons in H1 as [->|?]; [|done]. apply lookup_delete_eq.
    + exfalso. apply H1, elem_of_cons. by right.
    + apply not_elem_of_cons in H1 as [Hne _]. by rewrite lookup_delete_ne.
Qed.

(** ** The dispatcher pass *)

Lemma or_nat_0 n : or_nat n 0 = n.
Proof. by destruct n. Qed.

Lemma attemptLimit_pos n : 0 < attemptLimit n.
Proof. unfold attemptLimit, or_nat. destruct (maxAttempts n); lia. Qed.

Lemma attemptLimit_maxAttempts n : 0 < maxAttempts n → attemptLimit n = maxAttempts n.
Proof. unfold attemptLimit, or_nat. destruct (maxAttempts n); [lia|done]. Qed.

Section Pass.
Variable send : Transports → Notification → Outcome unit * list Delivery.
Variables (clk : PassClock) (tr : Transports).

Abbreviation delivered := (delivered send tr).

Lemma settle_collection st p :
  ps_collection (settle send clk tr st p)
  = update p.1 (settlement send clk tr p) (ps_collection st).
Proof.
  destruct p as [id n]. unfold settle, settlement, attemptLimit. simpl.
  destruct (send tr n) as [[u|e] calls]; simpl; [done|].
  rewrite or_nat_0. by destruct (_ <=? _).
Qed.

Lemma settle_log st p :
  ps_log (settle send clk tr st p) = ps_log st ++ (send tr p.2).2.
Proof.
  destruct p as [id n]. unfold settle. simpl.
  destruct (send tr n) as [[u|e] calls]; simpl; [done|]. by destruct (_ <=? _).
Qed.

Lemma settle_result st p :
  ps_result (settle send clk tr st p)
  = if delivered p then countSuccess (ps_result st)
    else match (send tr p.2).1 with
         | Threw e => countFailure (itemName p.2 +:+ ": " +:+ e) (ps_result st)
         | Returned _ => ps_result st
         end.
Proof.
  destruct p as [id n]. unfold settle, delivered. simpl.
  destruct (send tr n) as [[u|e] calls]; simpl; [done|]. by destruct (_ <=? _).
Qed.

Lemma foldl_settle_collection l st :
  ps_collection (foldl (settle send clk tr) st l)
  = updateEach (settlement send clk tr) l (ps_collection st).
Proof.
  revert st. induction l as [|p l IH]; intros st; [done|].
  simpl. rewrite IH, settle_collection. done.
Qed.

Lemma foldl_settle_log l st :
  ps_log (foldl (settle send clk tr) st l)
  = ps_log st ++ concat (map (λ p, (send tr p.2).2) l).
Proof.
  revert st. induction l as [|p l IH]; intros st; simpl.
  - by rewrite app_nil_r.
  - rewrite IH, settle_log. by rewrite <-app_assoc.
Qed.

Lemma foldl_settle_counts l st :
  let r := ps_result (foldl (settle send clk tr) st l) in
  processed r = processed (ps_result st)
  ∧ successful r = successful (ps_result st) + length (filter (λ p, delivered p = true) l)
  ∧ failed r = failed (ps_result st) + length (filter (λ p, delivered p = false) l).
Proof.
  revert st. induction l as [|p l IH]; intros st; simpl.
  - rewrite !Nat.add_0_r. done.
  - destruct (IH (settle send clk tr st p)) as (Hp & Hs & Hf).
    rewrite Hp, Hs, Hf, settle_result, !filter_cons.
    unfold delivered. destruct ((send tr p.2).1); simpl; repeat split; lia.
Qed.

Lemma processWith_collection c :
  ps_collection (processWith send clk tr c)
  = updateEach (settlement send clk tr) (dueWork (p_now clk) c)
      (batchUpdate (markProcessing (claimedAt clk)) (dueWork (p_now clk) c) c).
Proof.
  unfold processWith. destruct (dueWork (p_now clk) c) as [|p l] eqn:Hsnap; [done|].
  by rewrite foldl_settle_collection.
Qed.

Lemma processWith_nextId c : nextId (ps_collection (processWith send clk tr c)) = nextId c.
Proof.
  rewrite processWith_collection, updateEach_nextId, batchUpdate_updateEach.
  apply updateEach_nextId.
Qed.

(** A claimed record ends as its snapshot, marked processing, then settled. *)
Lemma processWith_lookup_claimed c id n :
  (id, n) ∈ dueWork (p_now clk) c →
  docs (ps_collection (processWith send clk tr c)) !! id
  = Some (settlement send clk tr (id, n) (markProcessing (claimedAt clk) n)).
Proof.
  intros Hin. rewrite processWith_collection.
  rewrite (updateEach_lookup_in _ _ _ id n); [|apply queryLimit_NoDup|done].
  rewrite batchUpdate_updateEach.
  rewrite (updateEach_lookup_in _ _ _ id n); [|apply queryLimit_NoDup|done].
  apply elem_of_queryLimit in Hin as [_ ->]. done.
Qed.

(** A record that was not claimed is not written. *)
Lemma processWith_lookup_other c id :
  id ∉ (dueWork (p_now clk) c).*1 →
  docs (ps_collection (processWith send clk tr c)) !! id = docs c !! id.
Proof.
  intros Hnot. rewrite processWith_collection.
  rewrite updateEach_lookup_notin by done.
  rewrite batchUpdate_updateEach. by apply updateEach_lookup_notin.
Qed.

Lemma processWith_log c :
  ps_log (processWith send clk tr c)
  = concat (map (λ p, (send tr p.2).2) (dueWork (p_now clk) c)).
Proof.
  unfold processWith. destruct (dueWork (p_now clk) c) as [|p l] eqn:Hsnap; [done|].
  by rewrite foldl_settle_log.
Qed.

Lemma processWith_counts c :
  let r := ps_result (processWith send clk tr c) in
  let snapshot := dueWork (p_now clk) c in
  processed r = length snapshot
  ∧ successful r = length (filter (λ p, delivered p = true) snapshot)
  ∧ failed r = length (filter (λ p, delivered p = false) snapshot).
Proof.
  unfold processWith. destruct (dueWork (p_now clk) c) as [|p l] eqn:Hsnap; [done|].
  simpl. pose proof (foldl_settle_counts (p :: l)) as H. simpl in H. apply H.
Qed.
End Pass.

Lemma elem_of_dueWork now c id n :
  (id, n) ∈ dueWork now c → docs c !! id = Some n ∧ status n = Scheduled ∧ (scheduledDate n ≤ now)%Z.
Proof. intros Hin. apply elem_of_queryLimit in Hin as [[? ?] ?]. done. Qed.

Lemma in_dueWork_ids now c id :
  id ∈ (dueWork now c).*1 → ∃ n, (id, n) ∈ dueWork now c.
Proof.
  intros Hin. apply list_elem_of_fmap in Hin as ([id' n] & -> & Hin). by exists n.
Qed.

(** ** Retry with backoff *)

(** C1.  In a pass whose retry dates are all instants a [Timestamp] can
    hold, a record claimed by the dispatcher whose send fails while the
    incremented attempt count is still below the attempt limit is written
    back with status [scheduled], one more attempt, the failure message as
    [lastError], and a due date of now plus 5 × 2^attempts minutes, attempts
    being the incremented count. *)
Theorem retry_reschedules_with_backoff ch clk tr c id n message :
  retriesInRange (sendOn ch) clk tr c →
  (id, n) ∈ dueWork (p_now clk) c →
  (sendOn ch tr n).1 = Threw message →
  attempts n + 1 < attemptLimit n →
  ∃ n', docs (ps_collection (processWith (sendOn ch) clk tr c)) !! id = Some n'
    ∧ status n' = Scheduled
    ∧ attempts n' = attempts n + 1
    ∧ lastError n' = Some message
    ∧ scheduledDate n'
      = (retryNow clk id + 5 * 2 ^ Z.of_nat (attempts n + 1) * 60000)%Z.
Proof.
  intros _ Hin Hsend Hlt.
  eexists. split; [by apply processWith_lookup_claimed|].
  unfold settlement. simpl. rewrite Hsend.
  destruct (Nat.leb_spec (attemptLimit n) (attempts n + 1)) as [Hle|_]; [lia|].
  simpl. repeat split. unfold addMinutes, backoffMinutes. lia.
Qed.

Lemma retry_reschedules_with_backoff_witness :
  ∃ n', docs (ps_collection (processWith (sendOn Email) sampleClock transportsDown
                               (sampleCollection Email))) !! 1%positive = Some n'
    ∧ status n' = Scheduled
    ∧ attempts n' = 1
    ∧ lastError n'
      = Some "Email failed for Laptop Warranty: No response from email service"
    ∧ scheduledDate n' = (2002 + 5 * 2 ^ 1 * 60000)%Z.
Proof.
  apply (retry_reschedules_with_backoff Email sampleClock transportsDown
           (sampleCollection Email) 1%positive (sampleDoc Email)).
  - apply (bool_decide_unpack _). vm_compute. exact I.
  - vm_compute. apply elem_of_cons. by left.
  - reflexivity.
  - vm_compute. lia.
Defined.

(** ** One operation on a collection *)

Lemma settlement_transition send clk tr id n :
  status n = Scheduled →
  transition n (settlement send clk tr (id, n) (markProcessing (claimedAt clk) n)).
Proof.
  intros Hs. unfold settlement. simpl. destruct ((send tr n).1) as [u|e].
  - by constructor.
  - destruct (Nat.leb_spec (attemptLimit n) (attempts n + 1)).
    + by constructor.
    + by constructor.
Qed.

Lemma evolves_refl c : evolves c c.
Proof. split; [lia|]. intros id n' Hl. left. eauto. Qed.

Lemma scheduleWith_cases validate now created data c :
  (∃ e, validate now data = Threw e ∧ scheduleWith validate now created data c = (Threw e, c))
  ∨ (∃ u, validate now data = Returned u
       ∧ scheduleWith validate now created data c
         = (Returned (nextId c), (add (notificationDoc created data) c).2)).
Proof.
  unfold scheduleWith. destruct (validate now data) as [u|e]; [right|left]; eauto.
Qed.

Lemma add_evolves doc c :
  (∃ created data, doc = notificationDoc created data) → evolves c (add doc c).2.
Proof.
  intros Hdoc. split; simpl; [lia|]. intros id n' Hl.
  destruct (decide (nextId c = id)) as [<-|Hne].
  - rewrite lookup_insert_eq in Hl. injection Hl as <-. right. repeat split; [lia|lia|done].
  - rewrite lookup_insert_ne in Hl by done. left. eauto.
Qed.

Lemma scheduleWith_evolves validate now created data c :
  evolves c (scheduleWith validate now created data c).2.
Proof.
  destruct (scheduleWith_cases validate now created data c)
    as [(e & _ & ->)|(u & _ & ->)]; simpl fst; simpl snd.
  - apply evolves_refl.
  - apply add_evolves. eauto.
Qed.

Lemma processWith_evolves send clk tr c :
  evolves c (ps_collection (processWith send clk tr c)).
Proof.
  split; [rewrite processWith_nextId; lia|]. intros id n' Hl. left.
  destruct (decide (id ∈ (dueWork (p_now clk) c).*1)) as [Hin|Hnot].
  - apply in_dueWork_ids in Hin as [n Hin].
    rewrite (processWith_lookup_claimed _ _ _ _ _ n) in Hl by done.
    injection Hl as <-. apply elem_of_dueWork in Hin as (Hc & Hs & _).
    exists n. split; [done|]. right. by apply settlement_transition.
  - rewrite processWith_lookup_other in Hl by done. eauto.
Qed.

Lemma cancelIn_spec t i u c :
  cancelIn t i u c
  = (length (query (matchesSubject i u) c),
     batchUpdate (markCancelled t) (query (matchesSubject i u) c) c).
Proof. unfold cancelIn. by destruct (query _ c). Qed.

Lemma cancelIn_lookup t i u c id :
  docs (cancelIn t i u c).2 !! id
  = (λ n, if decide (matchesSubject i u n) then markCancelled t n else n) <$> docs c !! id.
Proof.
  rewrite cancelIn_spec. simpl. rewrite batchUpdate_updateEach.
  destruct (docs c !! id) as [n|] eqn:Hl; simpl.
  - destruct (decide (matchesSubject i u n)) as [Hm|Hm].
    + rewrite (updateEach_lookup_in _ _ _ id n); [by rewrite Hl|apply query_NoDup|].
      by apply elem_of_query.
    + rewrite updateEach_lookup_notin; [done|].
      intros ([id' n'] & -> & Hin)%list_elem_of_fmap.
      apply elem_of_query in Hin as [Hm' Hl']. simpl in *. congruence.
  - rewrite updateEach_lookup_notin; [done|].
    intros ([id' n'] & -> & Hin)%list_elem_of_fmap.
    apply elem_of_query in Hin as [_ Hl']. simpl in *. congruence.
Qed.

Lemma cancelIn_nextId t i u c : nextId (cancelIn t i u c).2 = nextId c.
Proof. rewrite cancelIn_spec. simpl. rewrite batchUpdate_updateEach. apply updateEach_nextId. Qed.

Lemma cancelIn_evolves t i u c : evolves c (cancelIn t i u c).2.
Proof.
  split; [rewrite cancelIn_nextId; lia|]. intros id n' Hl. left.
  rewrite cancelIn_lookup in Hl. destruct (docs c !! id) as [n|]; [|done].
  simpl in Hl. injection Hl as <-. exists n. split; [done|].
  destruct (decide _) as [(_ & Hs & _)|_]; [right; by constructor|by left].
Qed.

Lemma cleanupCollection_spec cutoff c :
  cleanupCollection cutoff c
  = (length (queryLimit (isStale cutoff) 500 c),
     batchDelete (queryLimit (isStale cutoff) 500 c) c).
Proof. unfold cleanupCollection. by destruct (queryLimit _ _ c). Qed.

Lemma cleanupCollection_evolves cutoff c : evolves c (cleanupCollection cutoff c).2.
Proof.
  rewrite cleanupCollection_spec. simpl. split; [rewrite batchDelete_nextId; lia|].
  intros id n' Hl. left. rewrite batchDelete_lookup in Hl.
  destruct (decide _); [done|]. eauto.
Qed.

(** ** One operation on the store *)

Lemma collection_setCollection ch ch' c s :
  collection ch' (setCollection ch c s) = if decide (ch = ch') then c else collection ch' s.
Proof. by destruct ch, ch'. Qed.

Lemma store_eq s s' : (∀ ch, collection ch s = collection ch s') → s = s'.
Proof.
  intros H. destruct s, s'. pose proof (H Push). pose proof (H Email). pose proof (H Sms).
  simpl in *. congruence.
Qed.

Lemma fanOut_store clk req date prefs contact ch s :
  (fanOut clk req date prefs contact ch s).2
  = if eligible prefs contact ch
    then setCollection ch
           (scheduleOn ch (validatedAt clk ch) (storedAt clk ch)
              (requestData req date contact ch) (collection ch s)).2 s
    else s.
Proof. unfold fanOut. destruct (eligible _ _ _); [|done]. by destruct (scheduleOn _ _ _ _ _). Qed.

Lemma fanOut_promise clk req date prefs contact ch s :
  (fanOut clk req date prefs contact ch s).1
  = if eligible prefs contact ch
    then Some (scheduleOn ch (validatedAt clk ch) (storedAt clk ch)
                 (requestData req date contact ch) (collection ch s)).1
    else None.
Proof. unfold fanOut. destruct (eligible _ _ _); [|done]. by destruct (scheduleOn _ _ _ _ _). Qed.

(** The store after the three [if] statements of the handler. *)
Lemma fanOut_all_collections clk req date prefs contact s ch :
  collection ch
    (fanOut clk req date prefs contact Sms
       (fanOut clk req date prefs contact Email
          (fanOut clk req date prefs contact Push s).2).2).2
  = if eligible prefs contact ch
    then (scheduleOn ch (validatedAt clk ch) (storedAt clk ch)
            (requestData req date contact ch) (collection ch s)).2
    else collection ch s.
Proof.
  rewrite !fanOut_store.
  destruct (eligible prefs contact Push) eqn:Hp, (eligible prefs contact Email) eqn:He,
    (eligible prefs contact Sms) eqn:Hs, ch; rewrite ?Hp, ?He, ?Hs; reflexivity.
Qed.

(** The handler leaves the store alone unless the request passes its two
    checks, and then the store is the one left by the three fan-out steps. *)
Lemma scheduleItemNotification_store clk req s :
  (scheduleItemNotification clk req s).2 = s
  ∨ ∃ date, r_scheduledDate req = Some date ∧
      (scheduleItemNotification clk req s).2
      = (fanOut clk req date (default defaultPreferences (r_userPreferences req))
           (default noContact (r_userContact req)) Sms
           (fanOut clk req date (default defaultPreferences (r_userPreferences req))
              (default noContact (r_userContact req)) Email
              (fanOut clk req date (default defaultPreferences (r_userPreferences req))
                 (default noContact (r_userContact req)) Push s).2).2).2.
Proof.
  unfold scheduleItemNotification. destruct (r_scheduledDate req) as [date|]; [|by left].
  destruct (_ || _); [by left|]. destruct (_ <=? _)%Z; [by left|].
  right. exists date. split; [done|].
  destruct (fanOut _ _ _ _ _ Push s) as [p1 s1]. simpl.
  destruct (fanOut _ _ _ _ _ Email s1) as [p2 s2]. simpl.
  destruct (fanOut _ _ _ _ _ Sms s2) as [p3 s3]. simpl.
  destruct p1, p2, p3; try done; by destruct (_ || _).
Qed.

Lemma scheduleOn_evolves ch now created data c :
  evolves c (scheduleOn ch now created data c).2.
Proof. destruct ch; apply scheduleWith_evolves. Qed.

Lemma cancelNotifications_collection t i u s ch :
  collection ch (cancelNotifications t i u s).2 = collection ch s
  ∨ collection ch (cancelNotifications t i u s).2
    = (cancelIn (t ch) (default "" i) u (collection ch s)).2.
Proof.
  unfold cancelNotifications. destruct (negb _); [by left|]. right.
  unfold PushScheduler.cancelPushNotifications, EmailScheduler.cancelEmailNotifications,
    SmsScheduler.cancelSMSNotifications.
  destruct ch; simpl;
    destruct (cancelIn (t Push) _ _ _), (cancelIn (t Email) _ _ _), (cancelIn (t Sms) _ _ _);
    done.
Qed.

Lemma cleanupOldNotifications_collection now s ch :
  collection ch (cleanupOldNotifications now s).2
  = (cleanupCollection (subDays now 30) (collection ch s)).2.
Proof.
  unfold cleanupOldNotifications.
  destruct ch; simpl;
    destruct (cleanupCollection _ (scheduledPushNotifications s)),
      (cleanupCollection _ (scheduledEmailNotifications s)),
      (cleanupCollection _ (scheduledSMSNotifications s));
    done.
Qed.

(** Every operation evolves every collection. *)
Lemma step_evolves s op ch : evolves (collection ch s) (collection ch (step s op)).
Proof.
  destruct op as [ch' now created data|clk req|ch' clk tr|ch' t i u|t i u|now]; simpl.
  - rewrite collection_setCollection. case_decide as Heq; [subst ch'|apply evolves_refl].
    apply scheduleOn_evolves.
  - destruct (scheduleItemNotification_store clk req s) as [->|(date & _ & ->)];
      [apply evolves_refl|].
    rewrite fanOut_all_collections. destruct (eligible _ _ ch); [|apply evolves_refl].
    apply scheduleOn_evolves.
  - unfold dispatch. rewrite collection_setCollection.
    case_decide as Heq; [subst ch'|apply evolves_refl]. apply processWith_evolves.
  - rewrite collection_setCollection. case_decide as Heq; [subst ch'|apply evolves_refl].
    apply cancelIn_evolves.
  - destruct (cancelNotifications_collection t i u s ch) as [->| ->];
      [apply evolves_refl|apply cancelIn_evolves].
  - rewrite cleanupOldNotifications_collection. apply cleanupCollection_evolves.
Qed.

Lemma evolves_wf c c' : evolves c c' → coll_wf c → coll_wf c'.
Proof.
  intros [Hnext Hev] Hwf id n' Hl.
  destruct (Hev id n' Hl) as [(n & Hc & _)|(_ & Hlt & _)]; [|done].
  specialize (Hwf id n Hc). lia.
Qed.

Lemma step_wf s op : store_wf s → store_wf (step s op).
Proof. intros Hwf ch. eapply evolves_wf; [apply step_evolves|apply Hwf]. Qed.

Lemma run_wf ops s : store_wf s → store_wf (run ops s).
Proof.
  revert s. induction ops as [|op ops IH]; intros s Hwf; [done|].
  apply IH, step_wf, Hwf.
Qed.

Lemma emptyStore_wf : store_wf emptyStore.
Proof. intros ch id n. destruct ch; simpl; by rewrite lookup_empty. Qed.

(** ** Records out of [scheduled] are frozen *)

Lemma transition_from_scheduled n n' : transition n n' → status n = Scheduled.
Proof. by destruct 1. Qed.

(** Once a record has left [scheduled], no operation writes it again: it
    stays as it is until the sweeper deletes it, and its id is not given to
    another document. *)
Lemma settled_record_frozen s ch id n ops :
  store_wf s →
  docs (collection ch s) !! id = Some n →
  status n ≠ Scheduled →
  (id < nextId (collection ch (run ops s)))%positive
  ∧ (docs (collection ch (run ops s)) !! id = Some n
     ∨ docs (collection ch (run ops s)) !! id = None).
Proof.
  intros Hwf Hl Hs.
  assert (Hstart : (id < nextId (collection ch s))%positive
                   ∧ (docs (collection ch s) !! id = Some n
                      ∨ docs (collection ch s) !! id = None)).
  { split; [by eapply Hwf|by left]. }
  clear Hwf Hl. revert s Hstart. induction ops as [|op ops IH]; intros s Hstart; [done|].
  apply IH. destruct Hstart as [Hlt Hcase].
  destruct (step_evolves s op ch) as [Hnext Hev]. split; [lia|].
  destruct (docs (collection ch (step s op)) !! id) as [n'|] eqn:Hl'; [|by right].
  left. destruct (Hev id n' Hl') as [(n0 & Hl0 & Hmove)|(Hge & _)]; [|lia].
  destruct Hcase as [Hl|Hl]; [|congruence].
  assert (n0 = n) as -> by congruence.
  destruct Hmove as [->|Hmove]; [done|].
  by apply transition_from_scheduled in Hmove.
Qed.


Lemma dispatch_collection ch clk tr s :
  collection ch (dispatch ch clk tr s)
  = ps_collection (processWith (sendOn ch) clk tr (collection ch s)).
Proof. unfold dispatch. rewrite collection_setCollection. by rewrite decide_True. Qed.



(** ** The attempt counter stays within its limit *)

Lemma notificationDoc_inRange created data : attemptsInRange (notificationDoc created data).
Proof. unfold attemptsInRange. simpl. lia. Qed.

Lemma transition_inRange n n' : attemptsInRange n → transition n n' → attemptsInRange n'.
Proof.
  intros (Hpos & Hle & Hlt) Hmove. unfold attemptsInRange.
  destruct Hmove as [t n Hs|t0 t n Hs|t0 t e n Hs Hlim|t0 t e d n Hs Hlim]; simpl.
  - repeat split; [done..|]. intros ?; done.
  - repeat split; [done..|]. intros ?; done.
  - specialize (Hlt Hs). repeat split; [done|lia|]. intros ?; done.
  - rewrite attemptLimit_maxAttempts in Hlim by done. repeat split; [done|lia|]. intros _; lia.
Qed.

Lemma step_inRange s op : store_inRange s → store_inRange (step s op).
Proof.
  intros Hin ch id n' Hl.
  destruct (step_evolves s op ch) as [_ Hev].
  destruct (Hev id n' Hl) as [(n & Hl0 & [->|Hmove])|(_ & _ & created & data & ->)].
  - by eapply Hin.
  - eapply transition_inRange; [|done]. by eapply Hin.
  - apply notificationDoc_inRange.
Qed.

Lemma run_inRange ops s : store_inRange s → store_inRange (run ops s).
Proof.
  revert s. induction ops as [|op ops IH]; intros s Hin; [done|].
  apply IH, step_inRange, Hin.
Qed.

Lemma emptyStore_inRange : store_inRange emptyStore.
Proof. intros ch id n. destruct ch; simpl; by rewrite lookup_empty. Qed.

(** C6.  After any sequence of scheduler, dispatcher, cancellation (and
    sweeper) operations on an initially empty store, every record has
    [attempts ≤ maxAttempts]: records are created with 0 and 3, and a record
    whose count reaches the limit is made terminal. *)
Theorem attempts_never_exceed_maxAttempts ops ch id n :
  docs (collection ch (run ops emptyStore)) !! id = Some n →
  attempts n ≤ maxAttempts n.
Proof.
  intros Hl. destruct (run_inRange ops emptyStore emptyStore_inRange ch id n Hl) as (_ & H & _).
  exact H.
Qed.

Lemma attempts_never_exceed_maxAttempts_witness :
  ∃ n, docs (collection Email
               (run [OpSchedule Email 0%Z 1%Z (sampleData Email);
                     OpDispatch Email sampleClock transportsDown;
                     OpCancel Email 2500%Z "laptop" None]
                  emptyStore)) !! 1%positive = Some n
    ∧ attempts n = 1 ∧ attempts n ≤ maxAttempts n.
Proof.
  eexists. split; [vm_compute; reflexivity|]. split; [reflexivity|].
  apply (attempts_never_exceed_maxAttempts
           [OpSchedule Email 0%Z 1%Z (sampleData Email);
            OpDispatch Email sampleClock transportsDown;
            OpCancel Email 2500%Z "laptop" None] Email 1%positive).
  vm_compute. reflexivity.
Defined.

(** ** Retry dates within the range of a [Timestamp] *)

Lemma inTimestampRange_between lo date hi :
  inTimestampRange lo → inTimestampRange hi → (lo ≤ date ≤ hi)%Z → inTimestampRange date.
Proof.
  unfold inTimestampRange. intros [Hlo _] [_ Hhi] [Hl Hh]. split.
  - etrans; [exact Hlo|]. apply Z.div_le_mono; lia.
  - etrans; [|exact Hhi]. apply Z.div_le_mono; lia.
Qed.

Lemma transition_maxAttempts n n' : transition n n' → maxAttempts n' = maxAttempts n.
Proof. by intros [t m Hs|t0 t m Hs|t0 t e m Hs Hlim|t0 t e d m Hs Hlim]. Qed.

Lemma run_maxAttempts ops s :
  (∀ ch id n, docs (collection ch s) !! id = Some n → maxAttempts n = 3) →
  ∀ ch id n, docs (collection ch (run ops s)) !! id = Some n → maxAttempts n = 3.
Proof.
  revert s. induction ops as [|op ops IH]; intros s Hs; [done|].
  apply IH. intros ch id n' Hl.
  destruct (step_evolves s op ch) as [_ Hev].
  destruct (Hev id n' Hl) as [(n & Hl0 & [->|Hmove])|(_ & _ & created & data & ->)].
  - by eapply Hs.
  - rewrite (transition_maxAttempts _ _ Hmove). by eapply Hs.
  - done.
Qed.

(** The records the engine creates have an attempt limit of 3, so that a
    retry is at most twenty minutes ahead: on a store written by the engine
    alone, the retry dates of a pass are within the range of a [Timestamp]
    as soon as the clock is, with twenty minutes to spare. *)
Lemma engine_retries_in_range ops ch send clk tr :
  (∀ id, inTimestampRange (retryNow clk id)) →
  (∀ id, inTimestampRange (addMinutes (retryNow clk id) 20)) →
  retriesInRange send clk tr (collection ch (run ops emptyStore)).
Proof.
  intros Hnow Hlater. apply Forall_forall. intros [id n] Hin _ Hlt. simpl in *.
  apply elem_of_dueWork in Hin as (Hl & Hs & _).
  assert (Hmax : maxAttempts n = 3).
  { eapply (run_maxAttempts ops emptyStore); [|exact Hl].
    intros ch' id' n'. destruct ch'; simpl; by rewrite lookup_empty. }
  unfold attemptLimit in Hlt. rewrite Hmax in Hlt. simpl in Hlt.
  apply (inTimestampRange_between (retryNow clk id) _ (addMinutes (retryNow clk id) 20));
    [done..|].
  unfold addMinutes, backoffMinutes.
  assert (attempts n = 0 ∨ attempts n = 1) as [->| ->] by lia; simpl; lia.
Qed.

(** ** Fan-out *)

Lemma truthy_default o : truthy (default "" o) = truthy_opt o.
Proof. by destruct o. Qed.

Lemma add_createdOne n c : coll_wf c → createdOne n c (add n c).2.
Proof.
  intros Hwf. exists (nextId c). split; [|done].
  destruct (docs c !! nextId c) as [n0|] eqn:Hl; [|done].
  specialize (Hwf _ _ Hl). lia.
Qed.

(** For a valid request the scheduler of an eligible channel accepts. *)
Lemma scheduleOn_eligible clk req date ch c :
  validRequest clk req date →
  eligible (default defaultPreferences (r_userPreferences req))
    (default noContact (r_userContact req)) ch = true →
  scheduleOn ch (validatedAt clk ch) (storedAt clk ch)
    (requestData req date (default noContact (r_userContact req)) ch) c
  = (Returned (nextId c),
     (add (notificationDoc (storedAt clk ch)
             (requestData req date (default noContact (r_userContact req)) ch)) c).2).
Proof.
  intros (Hu & Hi & Hn & _ & _ & Hv) Hel. specialize (Hv ch).
  apply Z.leb_gt in Hv.
  destruct ch; simpl in Hel; apply andb_prop in Hel as [_ Hc];
    unfold scheduleOn, PushScheduler.schedulePushNotification,
      EmailScheduler.scheduleEmailNotification, SmsScheduler.scheduleSMSNotification,
      scheduleWith, PushScheduler.validateNotificationData,
      EmailScheduler.validateNotificationData, SmsScheduler.validateNotificationData;
    simpl; rewrite !truthy_default, Hu, Hi, Hn, Hv; simpl.
  - unfold hasTokens in Hc. by destruct (fcmTokens _) as [[|tok toks]|].
  - by rewrite Hc.
  - by rewrite Hc.
Qed.

Lemma scheduleItemNotification_accepted clk req s date :
  validRequest clk req date →
  let preferences := default defaultPreferences (r_userPreferences req) in
  let contact := default noContact (r_userContact req) in
  let f1 := fanOut clk req date preferences contact Push s in
  let f2 := fanOut clk req date preferences contact Email f1.2 in
  let f3 := fanOut clk req date preferences contact Sms f2.2 in
  scheduleItemNotification clk req s
  = (match f1.1, f2.1, f3.1 with
     | None, None, None =>
         HttpsError InvalidArgument
           "No valid notification preferences or contact details provided"
     | _, _, _ =>
         if rejected f1.1 || rejected f2.1 || rejected f3.1
         then HttpsError Internal "Failed to schedule notification"
         else Response {| id_push := fulfilledId f1.1;
                          id_email := fulfilledId f2.1;
                          id_sms := fulfilledId f3.1 |}
     end, f3.2).
Proof.
  intros (Hu & Hi & Hn & Hd & Hr & _). simpl.
  unfold scheduleItemNotification. rewrite Hd, Hu, Hi, Hn. simpl.
  apply Z.leb_gt in Hr. rewrite Hr.
  destruct (fanOut _ _ _ _ _ Push s) as [p1 s1]. simpl.
  destruct (fanOut _ _ _ _ _ Email s1) as [p2 s2]. simpl.
  destruct (fanOut _ _ _ _ _ Sms s2) as [p3 s3]. simpl.
  destruct p1, p2, p3; try done; by destruct (_ || _).
Qed.

Lemma fanOut_promise_valid clk req date ch s :
  validRequest clk req date →
  (fanOut clk req date (default defaultPreferences (r_userPreferences req))
     (default noContact (r_userContact req)) ch s).1
  = if eligible (default defaultPreferences (r_userPreferences req))
         (default noContact (r_userContact req)) ch
    then Some (Returned (nextId (collection ch s)))
    else None.
Proof.
  intros Hv. rewrite fanOut_promise. destruct (eligible _ _ ch) eqn:Hel; [|done].
  by rewrite (scheduleOn_eligible clk req date ch _ Hv Hel).
Qed.

(** The store and the response of a valid request. *)
Lemma valid_request_store clk req s date ch :
  validRequest clk req date →
  collection ch (scheduleItemNotification clk req s).2
  = if eligible (default defaultPreferences (r_userPreferences req))
         (default noContact (r_userContact req)) ch
    then (add (notificationDoc (storedAt clk ch)
                 (requestData req date (default noContact (r_userContact req)) ch))
            (collection ch s)).2
    else collection ch s.
Proof.
  intros Hv. rewrite (scheduleItemNotification_accepted clk req s date Hv). cbn [fst snd].
  rewrite fanOut_all_collections. destruct (eligible _ _ ch) eqn:Hel; [|done].
  by rewrite (scheduleOn_eligible clk req date ch _ Hv Hel).
Qed.

Lemma valid_request_response clk req s date :
  validRequest clk req date →
  let preferences := default defaultPreferences (r_userPreferences req) in
  let contact := default noContact (r_userContact req) in
  (scheduleItemNotification clk req s).1
  = if eligible preferences contact Push || eligible preferences contact Email
       || eligible preferences contact Sms
    then Response
           {| id_push := if eligible preferences contact Push
                         then Some (nextId (collection Push s)) else None;
              id_email := if eligible preferences contact Email
                          then Some (nextId (collection Email s)) else None;
              id_sms := if eligible preferences contact Sms
                        then Some (nextId (collection Sms s)) else None |}
    else HttpsError InvalidArgument
           "No valid notification preferences or contact details provided".
Proof.
  intros Hv preferences contact.
  rewrite (scheduleItemNotification_accepted clk req s date Hv). cbn [fst snd].
  unfold preferences, contact.
  rewrite !(fanOut_promise_valid clk req date _ _ Hv), !fanOut_store.
  destruct (eligible _ _ Push), (eligible _ _ Email), (eligible _ _ Sms); reflexivity.
Qed.

(** C3.  For a request with valid base fields and a date that is in the
    future at every check of the call: if some channel is enabled and has a
    contact, and the date is an instant a [Timestamp] can hold, the call
    succeeds, one record with status [scheduled] is added to the collection
    of each such channel, and the other collections are left as they were;
    if no channel is eligible, the call fails with [invalid-argument] and
    the store is unchanged. *)
Theorem fan_out_one_record_per_eligible_channel clk req s date :
  store_wf s →
  validRequest clk req date →
  let preferences := default defaultPreferences (r_userPreferences req) in
  let contact := default noContact (r_userContact req) in
  let result := scheduleItemNotification clk req s in
  ((∃ ch, eligible preferences contact ch = true) →
   inTimestampRange date →
     (∃ ids, result.1 = Response ids
        ∧ ∀ ch, is_Some (scheduledId ch ids) ↔ eligible preferences contact ch = true)
     ∧ ∀ ch,
         if eligible preferences contact ch
         then ∃ n, createdOne n (collection ch s) (collection ch result.2)
                 ∧ status n = Scheduled ∧ attempts n = 0 ∧ maxAttempts n = 3
         else collection ch result.2 = collection ch s)
  ∧ ((∀ ch, eligible preferences contact ch = false) →
     result.1 = HttpsError InvalidArgument
                  "No valid notification preferences or contact details provided"
     ∧ result.2 = s).
Proof.
  intros Hwf Hv preferences contact result.
  assert (Hstore := λ ch, valid_request_store clk req s date ch Hv).
  assert (Hfst := valid_request_response clk req s date Hv).
  cbv zeta in Hfst. fold preferences contact result in Hstore, Hfst.
  split.
  - intros [ch0 Hsome] _. split.
    + rewrite Hfst.
      destruct (eligible preferences contact Push) eqn:Hp,
        (eligible preferences contact Email) eqn:He,
        (eligible preferences contact Sms) eqn:Hs;
        try (destruct ch0; congruence);
        cbn [orb];
        (eexists; split; [reflexivity|]);
        intros ch; destruct ch; rewrite ?Hp, ?He, ?Hs; simpl;
        (split; [intros [? ?]; congruence|intros ?; try done; by eexists]).
    + intros ch. rewrite Hstore. destruct (eligible preferences contact ch); [|done].
      eexists. split; [apply add_createdOne, Hwf|]. done.
  - intros Hnone. split.
    + rewrite Hfst, !Hnone. done.
    + apply store_eq. intros ch. by rewrite Hstore, Hnone.
Qed.

Lemma sampleRequest_valid req :
  r_userId req = Some "u1" → r_itemId req = Some "laptop" →
  r_itemName req = Some "Laptop Warranty" → r_scheduledDate req = Some 1000%Z →
  validRequest sampleRequestClock req 1000%Z.
Proof.
  intros Hu Hi Hn Hd. unfold validRequest. rewrite Hu, Hi, Hn, Hd. simpl.
  repeat split; try (intros; lia).
Qed.

Lemma fan_out_one_record_per_eligible_channel_witness :
  let result := scheduleItemNotification sampleRequestClock sampleRequest emptyStore in
  (∃ ids, result.1 = Response ids
     ∧ ∀ ch, is_Some (scheduledId ch ids)
             ↔ eligible {| pref_email := true; pref_sms := false; pref_push := true |}
                 sampleContact ch = true)
  ∧ ∀ ch,
      if eligible {| pref_email := true; pref_sms := false; pref_push := true |}
           sampleContact ch
      then ∃ n, createdOne n (collection ch emptyStore) (collection ch result.2)
              ∧ status n = Scheduled ∧ attempts n = 0 ∧ maxAttempts n = 3
      else collection ch result.2 = collection ch emptyStore.
Proof.
  apply (proj1 (fan_out_one_record_per_eligible_channel sampleRequestClock sampleRequest
                  emptyStore 1000%Z emptyStore_wf
                  (sampleRequest_valid sampleRequest eq_refl eq_refl eq_refl eq_refl))).
  - exists Email. reflexivity.
  - unfold inTimestampRange. vm_compute. split; discriminate.
Defined.

(** ** Default preferences *)

Lemma eligible_default contact ch :
  eligible defaultPreferences contact ch
  = match ch with Email => truthy_opt (email contact) | _ => false end.
Proof. by destruct ch. Qed.

Lemma eligible_default_push contact : eligible defaultPreferences contact Push = false.
Proof. done. Qed.

Lemma eligible_default_email contact :
  eligible defaultPreferences contact Email = truthy_opt (email contact).
Proof. done. Qed.

Lemma eligible_default_sms contact : eligible defaultPreferences contact Sms = false.
Proof. done. Qed.

(** C10.  When [userPreferences] is omitted the handler uses
    [{ email: true, sms: false, push: false }]: whatever contacts are given,
    the push and SMS collections are left as they are; and for a valid
    request, with a date that is an instant a [Timestamp] can hold, an email
    reminder is scheduled exactly when an email contact is present (without
    one, no channel is eligible and the call fails, whatever the date). *)
Theorem omitted_preferences_schedule_email_only clk req s :
  r_userPreferences req = None →
  let contact := default noContact (r_userContact req) in
  let result := scheduleItemNotification clk req s in
  collection Push result.2 = collection Push s
  ∧ collection Sms result.2 = collection Sms s
  ∧ ∀ date, store_wf s → validRequest clk req date →
      if truthy_opt (email contact)
      then inTimestampRange date →
           ∃ n, result.1 = Response {| id_push := None;
                                       id_email := Some (nextId (collection Email s));
                                       id_sms := None |}
             ∧ createdOne n (collection Email s) (collection Email result.2)
             ∧ status n = Scheduled
             ∧ userContact n = {| fcmTokens := None; email := email contact; phone := None |}
      else result.1 = HttpsError InvalidArgument
                        "No valid notification preferences or contact details provided"
           ∧ result.2 = s.
Proof.
  intros Hnone. cbv zeta.
  assert (Hframe : ∀ ch, ch ≠ Email →
            collection ch (scheduleItemNotification clk req s).2 = collection ch s).
  { intros ch Hch.
    destruct (scheduleItemNotification_store clk req s) as [->|(date & _ & ->)]; [done|].
    rewrite fanOut_all_collections, Hnone.
    change (default defaultPreferences None) with defaultPreferences.
    rewrite eligible_default. by destruct ch. }
  split; [by apply Hframe|]. split; [by apply Hframe|].
  intros date Hwf Hv.
  assert (Hstore := valid_request_store clk req s date Email Hv).
  assert (Hfst := valid_request_response clk req s date Hv). cbv zeta in Hfst.
  rewrite Hnone in Hstore, Hfst.
  change (default defaultPreferences None) with defaultPreferences in Hstore, Hfst.
  rewrite !eligible_default_push, !eligible_default_email, !eligible_default_sms in Hfst.
  rewrite eligible_default_email in Hstore.
  destruct (truthy_opt (email (default noContact (r_userContact req)))) eqn:Hemail;
    simpl in Hfst.
  - intros _.
    eexists. split; [exact Hfst|]. split; [rewrite Hstore; apply add_createdOne, Hwf|].
    done.
  - split; [exact Hfst|]. apply store_eq. intros ch.
    destruct (decide (ch = Email)) as [->|Hne]; [exact Hstore|by apply Hframe].
Qed.

Lemma omitted_preferences_schedule_email_only_witness :
  let req :=
    {| r_userId := Some "u1"; r_itemId := Some "laptop";
       r_itemName := Some "Laptop Warranty";
       r_category := None; r_notificationType := None;
       r_scheduledDate := Some 1000%Z;
       r_userPreferences := None;
       r_userContact := Some sampleContact;
       r_reminderDaysBefore := None |} in
  let result := scheduleItemNotification sampleRequestClock req emptyStore in
  collection Push result.2 = emptyCollection
  ∧ collection Sms result.2 = emptyCollection
  ∧ ∃ n, result.1 = Response {| id_push := None; id_email := Some 1%positive; id_sms := None |}
      ∧ createdOne n emptyCollection (collection Email result.2)
      ∧ status n = Scheduled
      ∧ userContact n
        = {| fcmTokens := None; email := Some "owner@example.org"; phone := None |}.
Proof.
  intros req result.
  destruct (omitted_preferences_schedule_email_only sampleRequestClock req emptyStore eq_refl)
    as (Hpush & Hsms & Hemail).
  split; [exact Hpush|]. split; [exact Hsms|].
  apply (Hemail 1000%Z emptyStore_wf
           (sampleRequest_valid req eq_refl eq_refl eq_refl eq_refl)).
  unfold inTimestampRange. vm_compute. split; discriminate.
Defined.

(** ** Cancellation *)

Lemma query_length (P : Notification → Prop) `{!∀ n, Decision (P n)} c :
  length (query P c) = size (filter (λ p : DocId * Notification, P p.2) (docs c)).
Proof.
  rewrite map_filter_alt. rewrite map_size_list_to_map; [done|]. apply (query_NoDup P).
Qed.

Lemma query_nil (P : Notification → Prop) `{!∀ n, Decision (P n)} c :
  (∀ id n, docs c !! id = Some n → ¬ P n) → query P c = [].
Proof.
  intros Hnone. destruct (query P c) as [|[id n] l] eqn:Hq; [done|].
  assert (Hin : (id, n) ∈ query P c) by (rewrite Hq; apply elem_of_cons; by left).
  apply elem_of_query in Hin as [HP Hl]. by destruct (Hnone id n Hl).
Qed.

Lemma markCancelled_no_match t i u n : ¬ matchesSubject i u (markCancelled t n).
Proof. intros (_ & Hs & _). done. Qed.

Lemma cancelIn_again t t' i u c :
  cancelIn t' i u (cancelIn t i u c).2 = (0, (cancelIn t i u c).2).
Proof.
  unfold cancelIn at 1. rewrite query_nil; [done|].
  intros id n' Hl. rewrite cancelIn_lookup in Hl.
  destruct (docs c !! id) as [n|]; [|done]. simpl in Hl. injection Hl as <-.
  destruct (decide (matchesSubject i u n)); [apply markCancelled_no_match|done].
Qed.

(** C7.  A cancel call on a subject turns exactly the records of the
    collection that are [scheduled] and match the subject into [cancelled],
    stamping [cancelledAt]; every other record, in particular every record
    in [processing], [sent], [failed] or [cancelled], is left as it is; the
    count returned is the number of records transitioned; and a repeated
    cancel of the same subject returns 0 and changes nothing.  The callable
    [cancelNotifications] does this on the three collections and returns the
    sum of the counts. *)
Theorem cancel_transitions_exactly_the_scheduled_matches t i u c :
  let result := cancelIn t i u c in
  (∀ id n, docs c !! id = Some n → matchesSubject i u n →
     ∃ n', docs result.2 !! id = Some n' ∧ n' = markCancelled t n
           ∧ status n' = Cancelled ∧ cancelledAt n' = Some t)
  ∧ (∀ id n, docs c !! id = Some n → ¬ matchesSubject i u n → docs result.2 !! id = Some n)
  ∧ (∀ id n, docs c !! id = Some n → status n ≠ Scheduled → docs result.2 !! id = Some n)
  ∧ (∀ id, docs c !! id = None → docs result.2 !! id = None)
  ∧ result.1 = matching i u c
  ∧ (∀ t', cancelIn t' i u result.2 = (0, result.2))
  ∧ (truthy i = true → ∀ ts s,
       (cancelNotifications ts (Some i) u s).1
       = Response (matching i u (collection Push s) + matching i u (collection Email s)
                   + matching i u (collection Sms s))
       ∧ (∀ ch, collection ch (cancelNotifications ts (Some i) u s).2
                = (cancelIn (ts ch) i u (collection ch s)).2)
       ∧ ∀ ts', (cancelNotifications ts' (Some i) u
                   (cancelNotifications ts (Some i) u s).2).1 = Response 0).
Proof.
  cbv zeta.
  assert (Hcount : ∀ t0 c0, (cancelIn t0 i u c0).1 = matching i u c0).
  { intros t0 c0. rewrite cancelIn_spec. simpl. apply (query_length (matchesSubject i u)). }
  split; [|split; [|split; [|split; [|split; [|split]]]]].
  - intros id n Hl Hm. rewrite cancelIn_lookup, Hl. simpl. rewrite decide_True by done.
    eexists. by repeat split.
  - intros id n Hl Hm. rewrite cancelIn_lookup, Hl. simpl. by rewrite decide_False.
  - intros id n Hl Hs. rewrite cancelIn_lookup, Hl. simpl. rewrite decide_False; [done|].
    intros (_ & Hs' & _). done.
  - intros id Hl. by rewrite cancelIn_lookup, Hl.
  - apply Hcount.
  - intros t'. apply cancelIn_again.
  - intros Htruthy ts s.
    assert (Hcall : ∀ ts0 s0, cancelNotifications ts0 (Some i) u s0
              = (Response (0 + (cancelIn (ts0 Push) i u (collection Push s0)).1
                           + (cancelIn (ts0 Email) i u (collection Email s0)).1
                           + (cancelIn (ts0 Sms) i u (collection Sms s0)).1),
                 {| scheduledPushNotifications := (cancelIn (ts0 Push) i u (collection Push s0)).2;
                    scheduledEmailNotifications :=
                      (cancelIn (ts0 Email) i u (collection Email s0)).2;
                    scheduledSMSNotifications := (cancelIn (ts0 Sms) i u (collection Sms s0)).2 |})).
    { intros ts0 s0. unfold cancelNotifications. simpl. rewrite Htruthy. simpl.
      unfold PushScheduler.cancelPushNotifications, EmailScheduler.cancelEmailNotifications,
        SmsScheduler.cancelSMSNotifications.
      by destruct (cancelIn (ts0 Push) _ _ _), (cancelIn (ts0 Email) _ _ _),
        (cancelIn (ts0 Sms) _ _ _). }
    split; [|split].
    + rewrite Hcall. simpl. by rewrite !Hcount.
    + intros ch. rewrite Hcall. by destruct ch.
    + intros ts'. rewrite (Hcall ts'), Hcall. simpl. by rewrite !cancelIn_again.
Qed.

Lemma cancel_transitions_exactly_the_scheduled_matches_witness :
  let result := cancelIn 50%Z "laptop" None (sampleCollection Email) in
  result.1 = 1
  ∧ (∃ n', docs result.2 !! 1%positive = Some n' ∧ n' = markCancelled 50%Z (sampleDoc Email)
           ∧ status n' = Cancelled ∧ cancelledAt n' = Some 50%Z)
  ∧ cancelIn 60%Z "laptop" None result.2 = (0, result.2).
Proof.
  destruct (cancel_transitions_exactly_the_scheduled_matches 50%Z "laptop" None
              (sampleCollection Email)) as (Hmatch & _ & _ & _ & Hcount & Hagain & _).
  split; [|split].
  - rewrite Hcount. vm_compute. reflexivity.
  - apply (Hmatch 1%positive (sampleDoc Email)); [reflexivity|].
    unfold matchesSubject. simpl. done.
  - apply Hagain.
Defined.

(** ** Retention sweeper *)

Lemma batchDelete_size l c :
  NoDup l.*1 → (∀ id, id ∈ l.*1 → is_Some (docs c !! id)) →
  size (docs (batchDelete l c)) + length l = size (docs c).
Proof.
  revert c. induction l as [|p l IH]; intros c Hnd Hdom; [simpl; lia|].
  rewrite fmap_cons, NoDup_cons in Hnd. destruct Hnd as [Hfresh Hnd].
  change (batchDelete (p :: l) c)
    with (batchDelete l {| docs := delete p.1 (docs c); nextId := nextId c |}).
  assert (Hp : is_Some (docs c !! p.1)).
  { apply Hdom. rewrite fmap_cons. apply elem_of_cons. by left. }
  simpl length. rewrite <-Nat.add_succ_comm, Nat.add_succ_l, IH; [|done|].
  - simpl. rewrite map_size_delete_Some by done.
    pose proof (map_size_ne_0_lookup_2 (docs c) p.1 Hp). lia.
  - intros id Hin. simpl. rewrite lookup_delete_ne.
    + apply Hdom. rewrite fmap_cons. apply elem_of_cons. by right.
    + intros <-. done.
Qed.

Lemma cleanupCollection_lookup cutoff c id :
  docs (cleanupCollection cutoff c).2 !! id
  = if decide (id ∈ (queryLimit (isStale cutoff) 500 c).*1) then None else docs c !! id.
Proof. rewrite cleanupCollection_spec. apply batchDelete_lookup. Qed.

Lemma in_snapshot_ids (P : Notification → Prop) `{!∀ n, Decision (P n)} k c id :
  id ∈ (queryLimit P k c).*1 → ∃ n, docs c !! id = Some n ∧ P n.
Proof.
  intros ([id' n] & -> & Hin)%list_elem_of_fmap.
  apply elem_of_queryLimit in Hin as [HP Hl]. eauto.
Qed.

(** C8, as the code has it.  A sweeper run makes one query per collection,
    limited to 500 documents, and deletes what it returns; it does not
    query again.  So from each collection it deletes only records that are
    [sent] or [failed] with [processedAt] more than 30 days old, never a
    record that is [scheduled], [processing] or [cancelled], and changes no
    record it keeps; it deletes min(500, number of such records) of them,
    hence all of them when there are at most 500. *)
Theorem sweeper_deletes_one_bounded_batch now s ch :
  let cutoff := subDays now 30 in
  let c := collection ch s in
  let c' := collection ch (cleanupOldNotifications now s).2 in
  (∀ id n, docs c' !! id = Some n → docs c !! id = Some n)
  ∧ (∀ id n, docs c !! id = Some n → docs c' !! id = None →
       (status n = Sent ∨ status n = Failed)
       ∧ ∃ t, processedAt n = Some t ∧ (t < now - 30 * 86400000)%Z)
  ∧ (∀ id n, docs c !! id = Some n →
       status n = Scheduled ∨ status n = Processing ∨ status n = Cancelled →
       docs c' !! id = Some n)
  ∧ size (docs c') + min 500 (staleCount cutoff c) = size (docs c)
  ∧ (staleCount cutoff c ≤ 500 →
     ∀ id n, docs c !! id = Some n → isStale cutoff n → docs c' !! id = None).
Proof.
  cbv zeta. rewrite cleanupOldNotifications_collection.
  set (cutoff := subDays now 30). set (c := collection ch s).
  assert (Hkeep : ∀ id n, docs c !! id = Some n → ¬ isStale cutoff n →
            docs (cleanupCollection cutoff c).2 !! id = Some n).
  { intros id n Hl Hfresh. rewrite cleanupCollection_lookup.
    destruct (decide _) as [Hin|_]; [|done].
    apply (in_snapshot_ids (isStale cutoff)) in Hin as (n' & Hl' & Hst). congruence. }
  split; [|split; [|split; [|split]]].
  - intros id n. rewrite cleanupCollection_lookup. by destruct (decide _).
  - intros id n Hl Hgone. destruct (decide (isStale cutoff n)) as [[Hst Hold]|Hfresh].
    + split; [done|]. destruct (processedAt n) as [t|]; [|done].
      exists t. split; [done|]. unfold cutoff, subDays in Hold. lia.
    + rewrite (Hkeep id n Hl Hfresh) in Hgone. done.
  - intros id n Hl Hs. apply Hkeep; [done|]. intros [[?|?] _]; destruct Hs as [?|[?|?]];
      congruence.
  - rewrite cleanupCollection_spec. cbn [snd].
    unfold staleCount. rewrite <-(query_length (isStale cutoff)), <-queryLimit_length.
    apply batchDelete_size; [apply queryLimit_NoDup|].
    intros id Hin. apply (in_snapshot_ids (isStale cutoff)) in Hin as (n & -> & _). eauto.
  - intros Hfew id n Hl Hst. rewrite cleanupCollection_lookup.
    rewrite decide_True; [done|]. rewrite queryLimit_all.
    + apply (list_elem_of_fmap_2 fst _ (id, n)). by apply elem_of_query.
    + by rewrite (query_length (isStale cutoff)).
Qed.

(** C8, as stated, fails: with 501 records sent more than 30 days ago in
    one collection, a run deletes 500 of them and returns; one such record
    is still there. *)
Lemma sweeper_leaves_stale_record_behind :
  let now := (40 * 86400000)%Z in
  let s := setCollection Email (crowded 501) emptyStore in
  staleCount (subDays now 30) (collection Email s) = 501
  ∧ (cleanupOldNotifications now s).1 = 500
  ∧ ∃ id n, docs (collection Email s) !! id = Some n
      ∧ docs (collection Email (cleanupOldNotifications now s).2) !! id = Some n
      ∧ status n = Sent
      ∧ processedAt n = Some 10%Z
      ∧ (10 < now - 30 * 86400000)%Z.
Proof.
  split; [vm_compute; reflexivity|]. split; [vm_compute; reflexivity|].
  exists 1%positive, staleDoc. vm_compute. repeat split.
Qed.

Lemma sweeper_deletes_one_bounded_batch_witness :
  let now := (40 * 86400000)%Z in
  let s := setCollection Email (crowded 3) sampleStore in
  (∀ id n, docs (collection Email s) !! id = Some n →
     docs (collection Email (cleanupOldNotifications now s).2) !! id = None)
  ∧ docs (collection Push (cleanupOldNotifications now s).2) !! 1%positive
    = Some (sampleDoc Push).
Proof.
  intros now s.
  destruct (sweeper_deletes_one_bounded_batch now s Email) as (_ & _ & _ & _ & Hall).
  destruct (sweeper_deletes_one_bounded_batch now s Push) as (_ & _ & Hkeep & _ & _).
  split.
  - intros id n Hl. apply (Hall ltac:(vm_compute; lia) id n Hl).
    assert (Hn : n = staleDoc).
    { revert Hl. unfold s. simpl.
      destruct (decide (id = 3%positive)) as [->|?];
        [rewrite lookup_insert_eq; congruence|rewrite lookup_insert_ne by done].
      destruct (decide (id = 2%positive)) as [->|?];
        [rewrite lookup_insert_eq; congruence|rewrite lookup_insert_ne by done].
      destruct (decide (id = 1%positive)) as [->|?];
        [rewrite lookup_insert_eq; congruence|rewrite lookup_insert_ne by done].
      by rewrite lookup_empty. }
    rewrite Hn. unfold isStale. simpl. split; [by left|]. vm_compute. done.
  - apply Hkeep; [reflexivity|]. by left.
Defined.

(** ** Push delivery *)

Lemma pushPromise_fulfilled tr n token :
  ∃ b, (PushScheduler.pushPromise tr n token).1 = Fulfilled b.
Proof.
  unfold PushScheduler.pushPromise,
    PushNotificationService.sendSubscriptionReminderPush,
    PushNotificationService.sendLicenseExpirationReminderPush,
    PushNotificationService.sendWarrantyExpirationReminderPush,
    PushNotificationService.sendItemReminderPush,
    PushNotificationService.sendPushNotification.
  repeat destruct (String.eqb _ _); simpl; destruct (fcm tr token _); eauto.
Qed.

(** The push sender returns whatever the transport does: the service turns
    a rejection into the value [false], and the scheduler only looks at
    whether the promises are fulfilled. *)
Lemma sendPushNotification_returns tr n :
  (PushScheduler.sendPushNotification tr n).1 = Returned tt.
Proof.
  unfold PushScheduler.sendPushNotification.
  destruct (fcmTokens (userContact n)) as [[|token tokens]|]; [done| |done].
  simpl. destruct (pushPromise_fulfilled tr n token) as [b ->]. done.
Qed.

Lemma sendPushNotification_tokenless tr n :
  hasTokens (userContact n) = false →
  PushScheduler.sendPushNotification tr n = (Returned tt, []).
Proof.
  unfold hasTokens, PushScheduler.sendPushNotification.
  by destruct (fcmTokens (userContact n)) as [[|token tokens]|].
Qed.

Lemma delivered_in_snapshot send clk tr c id n :
  (id, n) ∈ dueWork (p_now clk) c → delivered send tr (id, n) = true →
  0 < successful (ps_result (processWith send clk tr c)).
Proof.
  intros Hin Hd. destruct (processWith_counts send clk tr c) as (_ & -> & _).
  assert (Hf : (id, n) ∈ filter (λ p, delivered send tr p = true) (dueWork (p_now clk) c)).
  { by apply list_elem_of_filter. }
  destruct (filter _ _); [by apply elem_of_nil in Hf|simpl; lia].
Qed.

(** C4, as the code has it.  For a claimed push record whose [fcmTokens]
    is missing or empty the sender returns at once without calling the
    transport, and the dispatcher treats that as a delivery: the record is
    marked [sent] and counted as successful.  Its attempt count and
    [lastError] are left as they were. *)
Theorem tokenless_push_record_is_marked_sent clk tr c id n :
  (id, n) ∈ dueWork (p_now clk) c →
  hasTokens (userContact n) = false →
  let pass := PushScheduler.processScheduledPushNotifications clk tr c in
  PushScheduler.sendPushNotification tr n = (Returned tt, [])
  ∧ (∃ n', docs (ps_collection pass) !! id = Some n'
       ∧ status n' = Sent
       ∧ sentAt n' = Some (writtenAt clk id)
       ∧ attempts n' = attempts n
       ∧ lastError n' = lastError n
       ∧ failedAt n' = failedAt n)
  ∧ 0 < successful (ps_result pass).
Proof.
  intros Hin Hnone pass.
  pose proof (sendPushNotification_tokenless tr n Hnone) as Hsend.
  split; [done|]. split.
  - eexists. split; [by apply processWith_lookup_claimed|].
    unfold settlement. simpl. rewrite Hsend. simpl. done.
  - apply (delivered_in_snapshot _ _ _ _ id n Hin). unfold delivered. simpl. by rewrite Hsend.
Qed.

(** C4, as stated, fails: a due push record with an empty token list goes
    from [scheduled] to [sent] in one pass and is counted as a success. *)
Lemma tokenless_push_record_changes_status :
  let pass :=
    PushScheduler.processScheduledPushNotifications sampleClock transportsUp
      tokenlessCollection in
  fcmTokens (userContact tokenlessDoc) = Some []
  ∧ dueWork (p_now sampleClock) tokenlessCollection = [(1%positive, tokenlessDoc)]
  ∧ status <$> docs tokenlessCollection !! 1%positive = Some Scheduled
  ∧ status <$> docs (ps_collection pass) !! 1%positive = Some Sent
  ∧ successful (ps_result pass) = 1
  ∧ ps_log pass = [].
Proof. vm_compute. repeat split. Qed.

Lemma tokenless_push_record_is_marked_sent_witness :
  let pass :=
    PushScheduler.processScheduledPushNotifications sampleClock transportsDown
      tokenlessCollection in
  PushScheduler.sendPushNotification transportsDown tokenlessDoc = (Returned tt, [])
  ∧ (∃ n', docs (ps_collection pass) !! 1%positive = Some n'
       ∧ status n' = Sent
       ∧ sentAt n' = Some 2003%Z
       ∧ attempts n' = 0
       ∧ lastError n' = None
       ∧ failedAt n' = None)
  ∧ 0 < successful (ps_result pass).
Proof.
  apply (tokenless_push_record_is_marked_sent sampleClock transportsDown
           tokenlessCollection 1%positive tokenlessDoc).
  - vm_compute. apply elem_of_cons. by left.
  - reflexivity.
Defined.

(** C5 on the code.  With two device tokens and a transport that rejects
    every message, the dispatcher calls the transport once per token, and
    then marks the record [sent] and counts it as successful: no token's
    delivery succeeded, yet the failure path is not taken. *)
Theorem push_record_sent_though_every_token_fails :
  let pass :=
    PushScheduler.processScheduledPushNotifications sampleClock transportsDown
      (sampleCollection Push) in
  fcmTokens (userContact (sampleDoc Push)) = Some ["device-1"; "device-2"]
  ∧ (∀ token content, fcm transportsDown token content = Rejected "unavailable")
  ∧ ps_log pass
    = [PushTo "device-1" (WarrantyExpirationReminder "Laptop Warranty" 1000%Z 7%Z);
       PushTo "device-2" (WarrantyExpirationReminder "Laptop Warranty" 1000%Z 7%Z)]
  ∧ status <$> docs (ps_collection pass) !! 1%positive = Some Sent
  ∧ attempts <$> docs (ps_collection pass) !! 1%positive = Some 0
  ∧ successful (ps_result pass) = 1
  ∧ failed (ps_result pass) = 0.
Proof. vm_compute. repeat split. Qed.

(** Hence every push record a pass claims ends [sent], the retry and
    failure branches being unreachable on the push channel. *)
Lemma push_pass_marks_every_claimed_record_sent clk tr c id n :
  (id, n) ∈ dueWork (p_now clk) c →
  status <$> docs (ps_collection
                     (PushScheduler.processScheduledPushNotifications clk tr c)) !! id
  = Some Sent.
Proof.
  intros Hin. unfold PushScheduler.processScheduledPushNotifications.
  rewrite (processWith_lookup_claimed _ _ _ _ _ n) by done.
  unfold settlement. simpl. by rewrite sendPushNotification_returns.
Qed.

(** ** Phone numbers *)

Lemma sendSMS_invalid tr to message :
  SMSService.isValidPhoneNumber to = false →
  SMSService.sendSMS tr to message = (Fulfilled false, []).
Proof. intros Hbad. unfold SMSService.sendSMS. by rewrite Hbad. Qed.

(** C9, as the code has it.  The SMS scheduler checks that a phone number
    is present, not how it is written: a request with valid base fields, a
    future date that is an instant a [Timestamp] can hold, and any non-empty
    phone number is accepted and stored as a [scheduled] record.  The E.164 check is made at delivery time by
    [SMSService.sendSMS]: for a number that fails it, the service calls no
    transport and returns [false], which the sender turns into an error, so
    that the dispatcher takes the failure path. *)
Theorem sms_number_format_is_checked_at_delivery now created data c number :
  coll_wf c →
  truthy (d_userId data) = true →
  truthy (d_itemId data) = true →
  truthy (d_itemName data) = true →
  (now < d_scheduledDate data)%Z →
  inTimestampRange (d_scheduledDate data) →
  phone (d_userContact data) = Some number →
  truthy number = true →
  let result := SmsScheduler.scheduleSMSNotification now created data c in
  let n := notificationDoc created data in
  result.1 = Returned (nextId c)
  ∧ createdOne n c result.2
  ∧ status n = Scheduled
  ∧ (SMSService.isValidPhoneNumber number = false →
     ∀ tr, SmsScheduler.sendSMSNotification tr n
           = (Threw ("SMS failed for " +:+ d_itemName data
                     +:+ ": No response from SMS service"), [])).
Proof.
  intros Hwf Hu Hi Hn Hdate _ Hphone Hnumber. cbv zeta.
  assert (Hvalid : SmsScheduler.validateNotificationData now data = Returned tt).
  { unfold SmsScheduler.validateNotificationData. rewrite Hu, Hi, Hn, Hphone. simpl.
    apply Z.leb_gt in Hdate. by rewrite Hdate, Hnumber. }
  unfold SmsScheduler.scheduleSMSNotification, scheduleWith. rewrite Hvalid.
  split; [done|]. split; [by apply add_createdOne|]. split; [done|].
  intros Hbad tr. unfold SmsScheduler.sendSMSNotification. simpl.
  rewrite Hphone. simpl. rewrite Hnumber. simpl.
  unfold SMSService.sendSubscriptionReminderSMS, SMSService.sendLicenseExpirationReminderSMS,
    SMSService.sendWarrantyExpirationReminderSMS, SMSService.sendItemReminderSMS.
  rewrite !(sendSMS_invalid tr number _ Hbad).
  by repeat destruct (String.eqb _ _).
Qed.

(** C9, as stated, fails: the number [555-0100] is not in E.164 format,
    and the scheduler accepts the request and stores the record. *)
Lemma sms_scheduler_accepts_malformed_number :
  let result := SmsScheduler.scheduleSMSNotification 0%Z 1%Z localNumberData emptyCollection in
  phone (d_userContact localNumberData) = Some "555-0100"
  ∧ SMSService.isValidPhoneNumber "555-0100" = false
  ∧ result.1 = Returned 1%positive
  ∧ docs result.2 !! 1%positive = Some (notificationDoc 1%Z localNumberData)
  ∧ size (docs result.2) = 1.
Proof. vm_compute. repeat split. Qed.

Lemma sms_number_format_is_checked_at_delivery_witness :
  let result := SmsScheduler.scheduleSMSNotification 0%Z 1%Z localNumberData emptyCollection in
  let n := notificationDoc 1%Z localNumberData in
  result.1 = Returned 1%positive
  ∧ createdOne n emptyCollection result.2
  ∧ status n = Scheduled
  ∧ (SMSService.isValidPhoneNumber "555-0100" = false →
     ∀ tr, SmsScheduler.sendSMSNotification tr n
           = (Threw "SMS failed for Laptop Warranty: No response from SMS service", [])).
Proof.
  apply (sms_number_format_is_checked_at_delivery 0%Z 1%Z localNumberData emptyCollection
           "555-0100").
  - intros id n. simpl. by rewrite lookup_empty.
  - reflexivity.
  - reflexivity.
  - reflexivity.
  - simpl. lia.
  - unfold inTimestampRange. vm_compute. split; discriminate.
  - reflexivity.
  - reflexivity.
Defined.

(** ** Checks on concrete inputs *)

Example backoff_minutes :
  map backoffMinutes [1; 2; 3] = [10%Z; 20%Z; 40%Z].
Proof. reflexivity. Qed.

Example phone_numbers :
  map SMSService.isValidPhoneNumber
    ["+14155550100"; "+1"; "+0123456"; "14155550100"; "+1415555010012345"; "+1415-555"; ""]
  = [true; false; false; false; false; false; false].
Proof. reflexivity. Qed.

Example join_errors : join ", " ["Push: a"; "Push: b"; "Push: c"] = "Push: a, Push: b, Push: c".
Proof. reflexivity. Qed.

(** A reminder requested for push and email, then one dispatcher pass per
    channel after the due instant with working transports: both records
    are [sent], and nothing was stored for SMS. *)
Example end_to_end :
  let s0 := (scheduleItemNotification sampleRequestClock sampleRequest emptyStore).2 in
  let s1 := run [OpDispatch Push sampleClock transportsUp;
                 OpDispatch Email sampleClock transportsUp;
                 OpDispatch Sms sampleClock transportsUp] s0 in
  status <$> docs (collection Push s1) !! 1%positive = Some Sent
  ∧ status <$> docs (collection Email s1) !! 1%positive = Some Sent
  ∧ docs (collection Sms s1) = ∅.
Proof. vm_compute. repeat split. Qed.

(** A pass over a store with no due record changes nothing. *)
Example idle_pass ch :
  processWith (sendOn ch) {| p_now := 500%Z; claimedAt := 501%Z;
                             retryNow := λ _, 502%Z; writtenAt := λ _, 503%Z |}
    transportsUp (sampleCollection ch)
  = {| ps_collection := sampleCollection ch; ps_result := emptyResult; ps_log := [] |}.
Proof. by destruct ch. Qed.

(** * Further properties *)

(** ** What the schedulers accept *)

Lemma scheduleOn_valid ch now created data c :
  validData ch now data = true →
  scheduleOn ch now created data c
  = (Returned (nextId c), (add (notificationDoc created data) c).2).
Proof.
  unfold validData. rewrite !andb_true_iff. intros ((((Hu & Hi) & Hn) & Hd) & Hc).
  assert (Hle : (d_scheduledDate data <=? now)%Z = false).
  { apply Z.leb_gt. by apply Z.ltb_lt. }
  destruct ch; simpl in Hc;
    unfold scheduleOn, PushScheduler.schedulePushNotification,
      EmailScheduler.scheduleEmailNotification, SmsScheduler.scheduleSMSNotification,
      scheduleWith, PushScheduler.validateNotificationData,
      EmailScheduler.validateNotificationData, SmsScheduler.validateNotificationData;
    rewrite Hu, Hi, Hn, Hle; simpl.
  - unfold hasTokens in Hc. by destruct (fcmTokens _) as [[|tok toks]|].
  - by rewrite Hc.
  - by rewrite Hc.
Qed.

Lemma scheduleOn_invalid ch now created data c :
  validData ch now data = false →
  ∃ e, scheduleOn ch now created data c = (Threw e, c).
Proof.
  unfold validData. intros Hbad.
  destruct ch;
    unfold scheduleOn, PushScheduler.schedulePushNotification,
      EmailScheduler.scheduleEmailNotification, SmsScheduler.scheduleSMSNotification,
      scheduleWith, PushScheduler.validateNotificationData,
      EmailScheduler.validateNotificationData, SmsScheduler.validateNotificationData;
    destruct (truthy (d_userId data)); simpl; eauto;
    destruct (truthy (d_itemId data)); simpl; eauto;
    destruct (truthy (d_itemName data)); simpl; eauto;
    rewrite Z.leb_antisym; destruct (now <? d_scheduledDate data)%Z; simpl; eauto;
    simpl in Hbad.
  - unfold hasTokens in Hbad. destruct (fcmTokens _) as [[|tok toks]|]; eauto. done.
  - rewrite Hbad. simpl. eauto.
  - rewrite Hbad. simpl. eauto.
Qed.

(** X1.  What the scheduler of a channel accepts.  A request whose user
    id, item id and item name are non-empty, whose date is later than the
    clock read by the validation, and which has the contact of the channel,
    is stored when its date is an instant a [Timestamp] can hold: the new
    document is the request with status [scheduled], and its id is returned.
    A request that fails one of the checks is not stored, whatever its date:
    the call throws and the collection is unchanged. *)
Theorem scheduler_stores_exactly_valid_requests ch now created data c :
  coll_wf c →
  let result := scheduleOn ch now created data c in
  if validData ch now data
  then inTimestampRange (d_scheduledDate data) →
       result.1 = Returned (nextId c)
       ∧ createdOne (notificationDoc created data) c result.2
       ∧ docs result.2 !! nextId c = Some (notificationDoc created data)
       ∧ nextId c ∉ (dueWork now result.2).*1
  else (∃ e, result.1 = Threw e) ∧ result.2 = c.
Proof.
  intros Hwf result. unfold result. destruct (validData ch now data) eqn:Hv.
  - intros _. rewrite (scheduleOn_valid _ _ _ _ _ Hv). cbn [fst snd].
    split; [done|]. split; [by apply add_createdOne|]. split.
    + simpl. by rewrite lookup_insert_eq.
    + intros Hin. apply in_dueWork_ids in Hin as [n Hin].
      apply elem_of_dueWork in Hin as (Hl & _ & Hdue).
      simpl in Hl. rewrite lookup_insert_eq in Hl. injection Hl as <-. simpl in Hdue.
      unfold validData in Hv. rewrite !andb_true_iff in Hv.
      destruct Hv as ((_ & Hd) & _). apply Z.ltb_lt in Hd. lia.
  - destruct (scheduleOn_invalid ch now created data c Hv) as [e ->]. simpl. eauto.
Qed.

Lemma scheduler_stores_exactly_valid_requests_witness :
  let result := scheduleOn Sms 0%Z 1%Z (sampleData Sms) (sampleCollection Sms) in
  result.1 = Returned 2%positive
  ∧ createdOne (notificationDoc 1%Z (sampleData Sms)) (sampleCollection Sms) result.2
  ∧ docs result.2 !! 2%positive = Some (notificationDoc 1%Z (sampleData Sms))
  ∧ 2%positive ∉ (dueWork 0%Z result.2).*1.
Proof.
  apply (scheduler_stores_exactly_valid_requests Sms 0%Z 1%Z (sampleData Sms)
           (sampleCollection Sms)).
  - intros id n. simpl. intros Hl.
    destruct (decide (id = 1%positive)) as [->|Hne]; [done|].
    by rewrite lookup_insert_ne, lookup_empty in Hl.
  - unfold inTimestampRange. vm_compute. split; discriminate.
Defined.

(** ** Errors of the handler *)

Lemma fanOut_none clk req date prefs contact ch s :
  (fanOut clk req date prefs contact ch s).1 = None →
  (fanOut clk req date prefs contact ch s).2 = s.
Proof.
  unfold fanOut. destruct (eligible _ _ _); [|done]. by destruct (scheduleOn _ _ _ _ _).
Qed.

(** X2.  A [scheduleItemNotification] call that fails with
    [invalid-argument], for whatever reason, has stored nothing. *)
Theorem invalid_argument_persists_nothing clk req s message :
  (scheduleItemNotification clk req s).1 = HttpsError InvalidArgument message →
  (scheduleItemNotification clk req s).2 = s.
Proof.
  unfold scheduleItemNotification. destruct (r_scheduledDate req) as [date|]; [|done].
  destruct (_ || _); [done|]. destruct (_ <=? _)%Z; [done|].
  pose proof (fanOut_none clk req date (default defaultPreferences (r_userPreferences req))
                (default noContact (r_userContact req))) as Hnone.
  destruct (fanOut _ _ _ _ _ Push s) as [p1 s1] eqn:H1.
  destruct (fanOut _ _ _ _ _ Email s1) as [p2 s2] eqn:H2.
  destruct (fanOut _ _ _ _ _ Sms s2) as [p3 s3] eqn:H3.
  pose proof (Hnone Push s) as N1. pose proof (Hnone Email s1) as N2.
  pose proof (Hnone Sms s2) as N3. rewrite H1 in N1. rewrite H2 in N2. rewrite H3 in N3.
  simpl in N1, N2, N3.
  destruct p1, p2, p3; try (destruct (_ || _); discriminate).
  intros _. simpl. rewrite N3, N2, N1; done.
Qed.

Lemma invalid_argument_persists_nothing_witness :
  let req :=
    {| r_userId := Some "u1"; r_itemId := Some "laptop";
       r_itemName := Some "Laptop Warranty";
       r_category := None; r_notificationType := None;
       r_scheduledDate := Some 1000%Z;
       r_userPreferences := Some {| pref_email := false; pref_sms := true; pref_push := true |};
       r_userContact := Some {| fcmTokens := Some []; email := Some "owner@example.org";
                                phone := None |};
       r_reminderDaysBefore := None |} in
  (scheduleItemNotification sampleRequestClock req sampleStore).2 = sampleStore.
Proof.
  intros req.
  apply (invalid_argument_persists_nothing sampleRequestClock req sampleStore
           "No valid notification preferences or contact details provided").
  reflexivity.
Defined.

Lemma contactable_channelContact contact ch :
  contactable (channelContact contact ch) ch = contactable contact ch.
Proof. by destruct ch. Qed.

Lemma eligible_contactable prefs contact ch :
  eligible prefs contact ch = true → contactable contact ch = true.
Proof. destruct ch; simpl; intros [_ H]%andb_prop; done. Qed.

Lemma requestData_valid req date contact ch now :
  truthy_opt (r_userId req) = true → truthy_opt (r_itemId req) = true →
  truthy_opt (r_itemName req) = true → contactable contact ch = true →
  validData ch now (requestData req date contact ch) = (now <? date)%Z.
Proof.
  intros Hu Hi Hn Hc. unfold validData. simpl.
  rewrite !truthy_default, Hu, Hi, Hn, contactable_channelContact, Hc. simpl.
  by rewrite andb_true_r.
Qed.

Lemma scheduleItemNotification_checked clk req s date :
  truthy_opt (r_userId req) = true → truthy_opt (r_itemId req) = true →
  truthy_opt (r_itemName req) = true → r_scheduledDate req = Some date →
  (requestedAt clk < date)%Z →
  let preferences := default defaultPreferences (r_userPreferences req) in
  let contact := default noContact (r_userContact req) in
  let f1 := fanOut clk req date preferences contact Push s in
  let f2 := fanOut clk req date preferences contact Email f1.2 in
  let f3 := fanOut clk req date preferences contact Sms f2.2 in
  scheduleItemNotification clk req s
  = (match f1.1, f2.1, f3.1 with
     | None, None, None =>
         HttpsError InvalidArgument
           "No valid notification preferences or contact details provided"
     | _, _, _ =>
         if rejected f1.1 || rejected f2.1 || rejected f3.1
         then HttpsError Internal "Failed to schedule notification"
         else Response {| id_push := fulfilledId f1.1;
                          id_email := fulfilledId f2.1;
                          id_sms := fulfilledId f3.1 |}
     end, f3.2).
Proof.
  intros Hu Hi Hn Hd Hr. simpl.
  unfold scheduleItemNotification. rewrite Hd, Hu, Hi, Hn. simpl.
  apply Z.leb_gt in Hr. rewrite Hr.
  destruct (fanOut _ _ _ _ _ Push s) as [p1 s1]. simpl.
  destruct (fanOut _ _ _ _ _ Email s1) as [p2 s2]. simpl.
  destruct (fanOut _ _ _ _ _ Sms s2) as [p3 s3]. simpl.
  destruct p1, p2, p3; try done; by destruct (_ || _).
Qed.

Lemma rejected_promise clk req date ch s :
  truthy_opt (r_userId req) = true → truthy_opt (r_itemId req) = true →
  truthy_opt (r_itemName req) = true →
  eligible (default defaultPreferences (r_userPreferences req))
    (default noContact (r_userContact req)) ch = true →
  (date ≤ validatedAt clk ch)%Z →
  ∃ e, (fanOut clk req date (default defaultPreferences (r_userPreferences req))
          (default noContact (r_userContact req)) ch s).1 = Some (Threw e).
Proof.
  intros Hu Hi Hn Hel Hlate. rewrite fanOut_promise, Hel.
  destruct (scheduleOn_invalid ch (validatedAt clk ch) (storedAt clk ch)
              (requestData req date (default noContact (r_userContact req)) ch)
              (collection ch s)) as [e ->]; [|by exists e].
  rewrite requestData_valid by eauto using eligible_contactable. by apply Z.ltb_ge.
Qed.

(** X3.  The fan-out is not transactional.  For a request that passes the
    handler's checks, with a date that is an instant a [Timestamp] can hold,
    each eligible channel is scheduled on its own: the channel gets its
    record exactly when the date is still in the future at that scheduler's
    own clock read, whatever happens on the other channels; and if the date
    is no longer in the future for some eligible channel, the call fails
    with [internal], whatever the date, while the records of the channels
    that were accepted stay stored. *)
Theorem partial_fan_out_is_not_rolled_back clk req s date :
  truthy_opt (r_userId req) = true → truthy_opt (r_itemId req) = true →
  truthy_opt (r_itemName req) = true → r_scheduledDate req = Some date →
  (requestedAt clk < date)%Z →
  let preferences := default defaultPreferences (r_userPreferences req) in
  let contact := default noContact (r_userContact req) in
  let result := scheduleItemNotification clk req s in
  (inTimestampRange date →
   ∀ ch, collection ch result.2
         = if eligible preferences contact ch && (validatedAt clk ch <? date)%Z
           then (add (notificationDoc (storedAt clk ch) (requestData req date contact ch))
                   (collection ch s)).2
           else collection ch s)
  ∧ (∀ ch, eligible preferences contact ch = true → (date ≤ validatedAt clk ch)%Z →
       result.1 = HttpsError Internal "Failed to schedule notification").
Proof.
  intros Hu Hi Hn Hd Hr. cbv zeta.
  rewrite (scheduleItemNotification_checked clk req s date Hu Hi Hn Hd Hr). cbn [fst snd].
  split.
  - intros _ ch. rewrite fanOut_all_collections.
    destruct (eligible _ _ ch) eqn:Hel; [|done]. simpl.
    pose proof (requestData_valid req date (default noContact (r_userContact req)) ch
                  (validatedAt clk ch) Hu Hi Hn (eligible_contactable _ _ _ Hel)) as Hvalid.
    destruct (validatedAt clk ch <? date)%Z.
    + by rewrite (scheduleOn_valid _ _ _ _ _ Hvalid).
    + by destruct (scheduleOn_invalid ch (validatedAt clk ch) (storedAt clk ch) _
                     (collection ch s) Hvalid) as [e ->].
  - intros ch Hel Hlate.
    pose proof (λ s', rejected_promise clk req date ch s' Hu Hi Hn Hel Hlate) as Hrej.
    set (f1 := fanOut clk req date _ _ Push s) in *.
    set (f2 := fanOut clk req date _ _ Email f1.2) in *.
    set (f3 := fanOut clk req date _ _ Sms f2.2) in *.
    destruct ch.
    + destruct (Hrej s) as [e He]. fold f1 in He. rewrite He. simpl.
      by destruct f2.1, f3.1.
    + destruct (Hrej f1.2) as [e He]. fold f2 in He. rewrite He.
      destruct f1.1 as [[?|?]|], f3.1; simpl; by rewrite ?orb_true_r.
    + destruct (Hrej f2.2) as [e He]. fold f3 in He. rewrite He.
      destruct f1.1 as [[?|?]|], f2.1 as [[?|?]|]; simpl; by rewrite ?orb_true_r.
Qed.

Lemma partial_fan_out_is_not_rolled_back_witness :
  let clk := {| requestedAt := 990%Z;
                validatedAt := λ ch, match ch with Push => 999%Z | _ => 1000%Z end;
                storedAt := λ _, 1001%Z |} in
  let result := scheduleItemNotification clk sampleRequest emptyStore in
  result.1 = HttpsError Internal "Failed to schedule notification"
  ∧ size (docs (collection Push result.2)) = 1
  ∧ size (docs (collection Email result.2)) = 0.
Proof.
  intros clk result.
  destruct (partial_fan_out_is_not_rolled_back clk sampleRequest emptyStore 1000%Z
              eq_refl eq_refl eq_refl eq_refl ltac:(simpl; lia)) as [Hstore Hfail].
  assert (Hrange : inTimestampRange 1000%Z)
    by (unfold inTimestampRange; vm_compute; split; discriminate).
  split; [|split].
  - apply (Hfail Email); [reflexivity|simpl; lia].
  - unfold result. rewrite (Hstore Hrange Push). reflexivity.
  - unfold result. rewrite (Hstore Hrange Email). reflexivity.
Defined.

(** ** More on the dispatcher pass *)

(** X4.  A pass over a collection in which no record is both [scheduled]
    and due returns at once: the collection is unchanged, the counts are
    zero and no transport is called. *)
Theorem pass_without_due_work_is_a_no_op send clk tr c :
  (∀ id n, docs c !! id = Some n → ¬ isDue (p_now clk) n) →
  processWith send clk tr c
  = {| ps_collection := c; ps_result := emptyResult; ps_log := [] |}.
Proof.
  intros Hnone. unfold processWith, dueWork, queryLimit.
  by rewrite (query_nil (isDue (p_now clk)) c Hnone).
Qed.

Lemma pass_without_due_work_is_a_no_op_witness :
  processWith (sendOn Email) sampleClock transportsDown
    (cancelIn 50%Z "laptop" None (sampleCollection Email)).2
  = {| ps_collection := (cancelIn 50%Z "laptop" None (sampleCollection Email)).2;
       ps_result := emptyResult; ps_log := [] |}.
Proof.
  apply pass_without_due_work_is_a_no_op.
  intros id n Hl [Hs _]. rewrite cancelIn_lookup in Hl.
  destruct (docs (sampleCollection Email) !! id) as [n0|] eqn:Hl0; [|done].
  simpl in Hl. injection Hl as <-.
  assert (n0 = sampleDoc Email) as ->.
  { revert Hl0. simpl. destruct (decide (id = 1%positive)) as [->|?].
    - rewrite lookup_insert_eq. intros [= <-]. reflexivity.
    - by rewrite lookup_insert_ne, lookup_empty. }
  revert Hs. by vm_compute.
Defined.

Lemma partition_length {A} (f : A → bool) (l : list A) :
  length (filter (λ x, f x = true) l) + length (filter (λ x, f x = false) l) = length l.
Proof.
  induction l as [|x l IH]; [done|]. rewrite !filter_cons.
  destruct (decide (f x = true)) as [Ht|Ht], (decide (f x = false)) as [Hf|Hf];
    simpl; try lia.
  - congruence.
  - by destruct (f x).
Qed.

Lemma foldl_settle_errors send clk tr l st :
  length (errors (ps_result (foldl (settle send clk tr) st l)))
  = length (errors (ps_result st)) + length (filter (λ p, delivered send tr p = false) l).
Proof.
  revert st. induction l as [|p l IH]; intros st; simpl; [lia|].
  rewrite IH, settle_result, filter_cons.
  destruct (decide (delivered send tr p = false)) as [Hd|Hd].
  - rewrite Hd. unfold delivered in Hd. destruct ((send tr p.2).1); [done|].
    simpl. rewrite length_app. simpl. lia.
  - destruct (delivered send tr p); [simpl; lia|done].
Qed.

(** X5.  The counts a pass reports: [processed] is the number of records
    claimed, at most 100 and at most the size of the collection; every
    claimed record is counted once, as successful or as failed; and there is
    one error string per failed record. *)
Theorem pass_counts_add_up send clk tr c :
  let r := ps_result (processWith send clk tr c) in
  processed r = length (dueWork (p_now clk) c)
  ∧ processed r ≤ 100
  ∧ processed r ≤ size (docs c)
  ∧ successful r + failed r = processed r
  ∧ length (errors r) = failed r.
Proof.
  cbv zeta. destruct (processWith_counts send clk tr c) as (Hp & Hs & Hf).
  cbv zeta in Hp, Hs, Hf. rewrite Hp, Hs, Hf.
  split; [done|]. split; [|split; [|split]].
  - unfold dueWork. rewrite queryLimit_length. lia.
  - unfold dueWork. rewrite queryLimit_length. unfold query.
    pose proof (length_filter (λ p : DocId * Notification, isDue (p_now clk) p.2)
                  (map_to_list (docs c))) as Hle.
    rewrite length_map_to_list in Hle. lia.
  - apply partition_length.
  - unfold processWith. destruct (dueWork (p_now clk) c) as [|p l] eqn:Hsnap; [done|].
    by rewrite foldl_settle_errors.
Qed.

Lemma settlement_shape send clk tr id n m :
  let m' := settlement send clk tr (id, n) m in
  (status m' = Sent ∨ status m' = Failed ∨ status m' = Scheduled)
  ∧ processedAt m' = processedAt m
  ∧ lastAttempt m' = Some (writtenAt clk id)
  ∧ userId m' = userId m ∧ itemId m' = itemId m ∧ itemName m' = itemName m
  ∧ userContact m' = userContact m ∧ createdAt m' = createdAt m
  ∧ maxAttempts m' = maxAttempts m
  ∧ (attempts m' = attempts m ∨ attempts m' = attempts n + 1).
Proof.
  unfold settlement. simpl. destruct ((send tr n).1) as [u|e]; simpl.
  - repeat split; eauto.
  - destruct (_ <=? _); simpl; repeat split; eauto.
Qed.

(** X6.  What a pass does to the collection.  When the retry dates of the
    pass are all instants a [Timestamp] can hold, every claimed record ends
    [sent], [failed] or [scheduled] again, never [processing], with
    [processedAt] and [lastAttempt] stamped, its owner, item, contact and
    attempt limit unchanged and its attempt count raised by at most one.  In
    any case a record that was not claimed is not written, and the pass
    neither adds nor removes a document. *)
Theorem pass_settles_every_claimed_record send clk tr c :
  let c' := ps_collection (processWith send clk tr c) in
  (retriesInRange send clk tr c →
   ∀ id n, (id, n) ∈ dueWork (p_now clk) c →
     ∃ n', docs c' !! id = Some n'
       ∧ (status n' = Sent ∨ status n' = Failed ∨ status n' = Scheduled)
       ∧ processedAt n' = Some (claimedAt clk)
       ∧ lastAttempt n' = Some (writtenAt clk id)
       ∧ userId n' = userId n ∧ itemId n' = itemId n ∧ itemName n' = itemName n
       ∧ userContact n' = userContact n ∧ createdAt n' = createdAt n
       ∧ maxAttempts n' = maxAttempts n
       ∧ (attempts n' = attempts n ∨ attempts n' = attempts n + 1))
  ∧ (∀ id, id ∉ (dueWork (p_now clk) c).*1 → docs c' !! id = docs c !! id)
  ∧ dom (docs c') = dom (docs c)
  ∧ nextId c' = nextId c.
Proof.
  cbv zeta. split; [|split; [|split]].
  - intros _ id n Hin. eexists. split; [by apply processWith_lookup_claimed|].
    apply (settlement_shape send clk tr id n (markProcessing (claimedAt clk) n)).
  - intros id Hnot. by apply processWith_lookup_other.
  - apply set_eq. intros id. rewrite !elem_of_dom.
    destruct (decide (id ∈ (dueWork (p_now clk) c).*1)) as [Hin|Hnot].
    + apply in_dueWork_ids in Hin as [n Hin].
      rewrite (processWith_lookup_claimed _ _ _ _ _ n) by done.
      apply elem_of_dueWork in Hin as (-> & _). split; eauto.
    + by rewrite processWith_lookup_other.
  - apply processWith_nextId.
Qed.



Lemma pass_settles_every_claimed_record_witness :
  let c' := ps_collection (processWith (sendOn Email) sampleClock transportsDown
                             (sampleCollection Email)) in
  (∃ n', docs c' !! 1%positive = Some n'
     ∧ (status n' = Sent ∨ status n' = Failed ∨ status n' = Scheduled)
     ∧ processedAt n' = Some 2001%Z
     ∧ lastAttempt n' = Some 2003%Z
     ∧ userId n' = "u1" ∧ itemId n' = "laptop" ∧ itemName n' = "Laptop Warranty"
     ∧ userContact n' = channelContact sampleContact Email ∧ createdAt n' = 1%Z
     ∧ maxAttempts n' = 3
     ∧ (attempts n' = 0 ∨ attempts n' = 0 + 1))
  ∧ docs c' !! 2%positive = None.
Proof.
  destruct (pass_settles_every_claimed_record (sendOn Email) sampleClock transportsDown
              (sampleCollection Email)) as (Hclaimed & Hother & _).
  split.
  - apply (Hclaimed ltac:(apply (bool_decide_unpack _); vm_compute; exact I)
             1%positive (sampleDoc Email)).
    vm_compute. apply elem_of_cons. by left.
  - rewrite (Hother 2%positive); [reflexivity|].
    vm_compute. intros Hin. apply elem_of_cons in Hin as [Heq|Hin]; [done|].
    by apply elem_of_nil in Hin.
Defined.

Lemma backoffMinutes_at_least_ten k : (10 ≤ backoffMinutes (k + 1))%Z.
Proof.
  unfold backoffMinutes. rewrite Nat.add_1_r, Nat2Z.inj_succ, Z.pow_succ_r by lia.
  assert (0 < 2 ^ Z.of_nat k)%Z by (apply Z.pow_pos_nonneg; lia). lia.
Qed.

(** X8.  A retry moves the due date forward.  In a pass whose retry dates
    are all instants a [Timestamp] can hold, the new due date of a record
    that is retried is at least ten minutes after the instant of the
    failure, so until then no pass selects the record again; and when the
    clock does not run backwards within the pass, the new due date is later
    than the old one. *)
Theorem retry_moves_the_due_date_forward send clk tr c id n message :
  retriesInRange send clk tr c →
  (id, n) ∈ dueWork (p_now clk) c →
  (send tr n).1 = Threw message →
  attempts n + 1 < attemptLimit n →
  let c' := ps_collection (processWith send clk tr c) in
  ∃ n', docs c' !! id = Some n'
    ∧ (retryNow clk id + 600000 ≤ scheduledDate n')%Z
    ∧ ((p_now clk ≤ retryNow clk id)%Z → (scheduledDate n < scheduledDate n')%Z)
    ∧ ∀ now', (now' < retryNow clk id + 600000)%Z → id ∉ (dueWork now' c').*1.
Proof.
  intros _ Hin Hsend Hlt c'.
  assert (Hl : docs c' !! id
               = Some (markRetry (attempts n + 1) message
                         (addMinutes (retryNow clk id) (backoffMinutes (attempts n + 1)))
                         (writtenAt clk id) (markProcessing (claimedAt clk) n))).
  { unfold c'. rewrite (processWith_lookup_claimed _ _ _ _ _ n) by done.
    unfold settlement. simpl. rewrite Hsend.
    by destruct (Nat.leb_spec (attemptLimit n) (attempts n + 1)) as [?|_]; [lia|]. }
  pose proof (backoffMinutes_at_least_ten (attempts n)) as Hten.
  eexists. split; [exact Hl|]. simpl. unfold addMinutes.
  split; [lia|]. split.
  - intros Hmono. apply elem_of_dueWork in Hin as (_ & _ & Hdue). lia.
  - intros now' Hearly Hagain. apply in_dueWork_ids in Hagain as [m Hagain].
    apply elem_of_dueWork in Hagain as (Hm & _ & Hdue). rewrite Hl in Hm.
    injection Hm as <-. simpl in Hdue. unfold addMinutes in Hdue. lia.
Qed.

Lemma retry_moves_the_due_date_forward_witness :
  let c' := ps_collection (processWith (sendOn Email) sampleClock transportsDown
                             (sampleCollection Email)) in
  ∃ n', docs c' !! 1%positive = Some n'
    ∧ (2002 + 600000 ≤ scheduledDate n')%Z
    ∧ ((2000 ≤ 2002)%Z → (1000 < scheduledDate n')%Z)
    ∧ ∀ now', (now' < 2002 + 600000)%Z → 1%positive ∉ (dueWork now' c').*1.
Proof.
  apply (retry_moves_the_due_date_forward (sendOn Email) sampleClock transportsDown
           (sampleCollection Email) 1%positive (sampleDoc Email)
           "Email failed for Laptop Warranty: No response from email service").
  - apply (bool_decide_unpack _). vm_compute. exact I.
  - vm_compute. apply elem_of_cons. by left.
  - reflexivity.
  - vm_compute. lia.
Defined.


Lemma claimed_lookup now c id n :
  id ∈ (dueWork now c).*1 → docs c !! id = Some n → (id, n) ∈ dueWork now c.
Proof.
  intros Hin Hl. apply in_dueWork_ids in Hin as [m Hin].
  pose proof (elem_of_dueWork _ _ _ _ Hin) as (Hm & _). congruence.
Qed.




(** ** What is kept, and for how long *)

Lemma scheduleWith_keeps validate now created data c id n :
  docs c !! id = Some n →
  is_Some (docs (scheduleWith validate now created data c).2 !! id).
Proof.
  intros Hl.
  destruct (scheduleWith_cases validate now created data c) as [(e & _ & ->)|(u & _ & ->)];
    simpl; [by eauto|].
  rewrite lookup_insert. case_decide; eauto.
Qed.

Lemma scheduleOn_keeps ch now created data c id n :
  docs c !! id = Some n → is_Some (docs (scheduleOn ch now created data c).2 !! id).
Proof. destruct ch; apply scheduleWith_keeps. Qed.

Lemma processWith_keeps send clk tr c id n :
  docs c !! id = Some n →
  is_Some (docs (ps_collection (processWith send clk tr c)) !! id).
Proof.
  intros Hl. destruct (decide (id ∈ (dueWork (p_now clk) c).*1)) as [Hin|Hnot].
  - rewrite (processWith_lookup_claimed _ _ _ _ _ n); [eauto|].
    by apply claimed_lookup.
  - rewrite processWith_lookup_other by done. eauto.
Qed.

(** An operation removes a record only if the sweeper's query matches it. *)
Lemma step_removes_only_terminal s op ch id n :
  docs (collection ch s) !! id = Some n →
  docs (collection ch (step s op)) !! id = None →
  status n = Sent ∨ status n = Failed.
Proof.
  intros Hl.
  destruct op as [ch' now created data|clk req|ch' clk tr|ch' t i u|t i u|now]; simpl.
  - rewrite collection_setCollection. case_decide as Heq; [subst ch'|congruence].
    destruct (scheduleOn_keeps ch now created data _ id n Hl) as [m ->]. done.
  - destruct (scheduleItemNotification_store clk req s) as [->|(date & _ & ->)];
      [congruence|].
    rewrite fanOut_all_collections. destruct (eligible _ _ ch); [|congruence].
    destruct (scheduleOn_keeps ch (validatedAt clk ch) (storedAt clk ch)
                (requestData req date (default noContact (r_userContact req)) ch)
                _ id n Hl) as [m ->]. done.
  - unfold dispatch. rewrite collection_setCollection.
    case_decide as Heq; [subst ch'|congruence].
    destruct (processWith_keeps (sendOn ch) clk tr _ id n Hl) as [m ->]. done.
  - rewrite collection_setCollection. case_decide as Heq; [subst ch'|congruence].
    rewrite cancelIn_lookup, Hl. done.
  - destruct (cancelNotifications_collection t i u s ch) as [->| ->]; [congruence|].
    rewrite cancelIn_lookup, Hl. done.
  - rewrite cleanupOldNotifications_collection, cleanupCollection_lookup.
    destruct (decide _) as [Hin|_]; [|congruence]. intros _.
    apply (in_snapshot_ids (isStale (subDays now 30))) in Hin as (m & Hm & Hstale & _).
    congruence.
Qed.

(** A record that is [processing] or [cancelled] is kept as it is by every
    sequence of operations. *)
Lemma retained_forever s ch id n ops :
  store_wf s →
  docs (collection ch s) !! id = Some n →
  status n = Processing ∨ status n = Cancelled →
  docs (collection ch (run ops s)) !! id = Some n.
Proof.
  intros Hwf Hl Hs. revert s Hwf Hl. induction ops as [|op ops IH]; intros s Hwf Hl; [done|].
  apply IH; [by apply step_wf|].
  destruct (step_evolves s op ch) as [_ Hev].
  destruct (docs (collection ch (step s op)) !! id) as [n'|] eqn:Hl'.
  - destruct (Hev id n' Hl') as [(n0 & Hl0 & Hmove)|(Hge & _)].
    + assert (n0 = n) as -> by congruence.
      destruct Hmove as [->|Hmove]; [done|].
      apply transition_from_scheduled in Hmove. destruct Hs; congruence.
    + specialize (Hwf ch id n Hl). lia.
  - destruct (step_removes_only_terminal s op ch id n Hl Hl'); destruct Hs; congruence.
Qed.

Lemma never_due_unless_scheduled s ch id n ops now :
  store_wf s →
  docs (collection ch s) !! id = Some n →
  status n ≠ Scheduled →
  id ∉ (dueWork now (collection ch (run ops s))).*1.
Proof.
  intros Hwf Hl Hs Hin. apply in_dueWork_ids in Hin as [n' Hin].
  apply elem_of_dueWork in Hin as (Hl' & Hs' & _).
  destruct (settled_record_frozen s ch id n ops Hwf Hl Hs) as [_ [H|H]]; congruence.
Qed.

(** X10.  A record left in [processing] (claimed by a run that never
    settled it) is never picked up again: whatever operations follow, no
    pass selects it, no cancellation touches it and the sweeper does not
    delete it; it stays in the collection exactly as it is. *)
Theorem processing_record_is_never_reclaimed s ch id n :
  store_wf s →
  docs (collection ch s) !! id = Some n →
  status n = Processing →
  ∀ ops,
    docs (collection ch (run ops s)) !! id = Some n
    ∧ (∀ now, id ∉ (dueWork now (collection ch (run ops s))).*1)
    ∧ (∀ t i u, docs (cancelIn t i u (collection ch (run ops s))).2 !! id = Some n)
    ∧ (∀ now, docs (collection ch (cleanupOldNotifications now (run ops s)).2) !! id = Some n).
Proof.
  intros Hwf Hl Hs ops.
  assert (Hkept : ∀ ops', docs (collection ch (run ops' s)) !! id = Some n).
  { intros ops'. apply retained_forever; auto. }
  split; [apply Hkept|]. split; [|split].
  - intros now. eapply never_due_unless_scheduled; [done..|congruence].
  - intros t i u. specialize (Hkept (ops ++ [OpCancel ch t i u])).
    unfold run in Hkept. rewrite foldl_app in Hkept. simpl in Hkept.
    rewrite collection_setCollection, decide_True in Hkept by done. exact Hkept.
  - intros now. specialize (Hkept (ops ++ [OpCleanup now])).
    unfold run in Hkept. rewrite foldl_app in Hkept. exact Hkept.
Qed.

Lemma processing_record_is_never_reclaimed_witness :
  let stuck := markProcessing 2001%Z (sampleDoc Email) in
  let s := setCollection Email (add stuck emptyCollection).2 emptyStore in
  let ops := [OpDispatch Email sampleClock transportsUp;
              OpCancelNotifications (λ _, 3000%Z) (Some "laptop") None;
              OpCleanup 5000000000%Z] in
  docs (collection Email (run ops s)) !! 1%positive = Some stuck
  ∧ (∀ now, 1%positive ∉ (dueWork now (collection Email (run ops s))).*1)
  ∧ (∀ t i u, docs (cancelIn t i u (collection Email (run ops s))).2 !! 1%positive
              = Some stuck)
  ∧ (∀ now, docs (collection Email (cleanupOldNotifications now (run ops s)).2)
              !! 1%positive = Some stuck).
Proof.
  intros stuck s ops.
  apply (processing_record_is_never_reclaimed s Email 1%positive stuck).
  - intros ch id n. destruct ch; simpl; rewrite ?lookup_empty; try done.
    intros Hl. destruct (decide (id = 1%positive)) as [->|Hne]; [done|].
    by rewrite lookup_insert_ne, lookup_empty in Hl.
  - reflexivity.
  - reflexivity.
Defined.

Lemma cancelNotifications_truthy ts i u s ch :
  truthy i = true →
  collection ch (cancelNotifications ts (Some i) u s).2
  = (cancelIn (ts ch) i u (collection ch s)).2.
Proof.
  intros Hi. unfold cancelNotifications. simpl. rewrite Hi. simpl.
  unfold PushScheduler.cancelPushNotifications, EmailScheduler.cancelEmailNotifications,
    SmsScheduler.cancelSMSNotifications.
  destruct ch; simpl;
    destruct (cancelIn (ts Push) _ _ _), (cancelIn (ts Email) _ _ _),
      (cancelIn (ts Sms) _ _ _); done.
Qed.

(** X11.  A reminder cancelled while still [scheduled] is never sent.
    After a [cancelNotifications] call on its item, whatever operations
    follow, the record stays [cancelled] with the same [cancelledAt], no pass
    selects it, and the sweeper does not delete it. *)
Theorem cancelled_reminder_is_never_sent s ch id n ts i u :
  store_wf s →
  truthy i = true →
  docs (collection ch s) !! id = Some n →
  matchesSubject i u n →
  let s' := (cancelNotifications ts (Some i) u s).2 in
  ∀ ops,
    docs (collection ch (run ops s')) !! id = Some (markCancelled (ts ch) n)
    ∧ ∀ now, id ∉ (dueWork now (collection ch (run ops s'))).*1.
Proof.
  intros Hwf Hi Hl Hm s' ops.
  assert (Hwf' : store_wf s').
  { apply (step_wf s (OpCancelNotifications ts (Some i) u)), Hwf. }
  assert (Hl' : docs (collection ch s') !! id = Some (markCancelled (ts ch) n)).
  { unfold s'. rewrite cancelNotifications_truthy by done.
    rewrite cancelIn_lookup, Hl. simpl. by rewrite decide_True. }
  split.
  - apply retained_forever; [done..|]. by right.
  - intros now. eapply never_due_unless_scheduled; [done..|]. done.
Qed.

Lemma cancelled_reminder_is_never_sent_witness :
  let s' := (cancelNotifications (λ _, 50%Z) (Some "laptop") (Some "u1") sampleStore).2 in
  let ops := [OpDispatch Push sampleClock transportsUp;
              OpCancelNotifications (λ _, 3000%Z) (Some "laptop") None;
              OpCleanup 5000000000%Z] in
  docs (collection Push (run ops s')) !! 1%positive
  = Some (markCancelled 50%Z (sampleDoc Push))
  ∧ ∀ now, 1%positive ∉ (dueWork now (collection Push (run ops s'))).*1.
Proof.
  intros s' ops.
  apply (cancelled_reminder_is_never_sent sampleStore Push 1%positive (sampleDoc Push)
           (λ _, 50%Z) "laptop" (Some "u1")).
  - intros ch id n. destruct ch; simpl; intros Hl;
      (destruct (decide (id = 1%positive)) as [->|Hne]; [done|]);
      by rewrite lookup_insert_ne, lookup_empty in Hl.
  - reflexivity.
  - reflexivity.
  - unfold matchesSubject. simpl. done.
Defined.

(** X12.  A record claimed by a pass is kept for at least thirty days from
    the claim: a sweeper run whose clock is not more than 30 days past the
    [claimedAt] of the pass leaves the record in place, whatever its
    outcome was. *)
Theorem claimed_record_is_kept_thirty_days ch clk tr s id n now :
  (id, n) ∈ dueWork (p_now clk) (collection ch s) →
  (now - 30 * 86400000 ≤ claimedAt clk)%Z →
  let s1 := dispatch ch clk tr s in
  ∃ n', docs (collection ch s1) !! id = Some n'
    ∧ processedAt n' = Some (claimedAt clk)
    ∧ docs (collection ch (cleanupOldNotifications now s1).2) !! id = Some n'.
Proof.
  intros Hin Hrecent s1.
  assert (Hl : docs (collection ch s1) !! id
               = Some (settlement (sendOn ch) clk tr (id, n)
                         (markProcessing (claimedAt clk) n))).
  { unfold s1. rewrite dispatch_collection. by apply processWith_lookup_claimed. }
  destruct (settlement_shape (sendOn ch) clk tr id n (markProcessing (claimedAt clk) n))
    as (_ & Hp & _).
  eexists. split; [exact Hl|]. split; [exact Hp|].
  rewrite cleanupOldNotifications_collection, cleanupCollection_lookup.
  destruct (decide _) as [Hsnap|_]; [|done].
  apply (in_snapshot_ids (isStale (subDays now 30))) in Hsnap as (m & Hm & _ & Hold).
  rewrite Hl in Hm. injection Hm as <-. rewrite Hp in Hold. simpl in Hold.
  unfold subDays in Hold. lia.
Qed.

Lemma claimed_record_is_kept_thirty_days_witness :
  let s1 := dispatch Email sampleClock transportsUp sampleStore in
  ∃ n', docs (collection Email s1) !! 1%positive = Some n'
    ∧ processedAt n' = Some 2001%Z
    ∧ docs (collection Email (cleanupOldNotifications (2001 + 30 * 86400000)%Z s1).2)
        !! 1%positive = Some n'.
Proof.
  apply (claimed_record_is_kept_thirty_days Email sampleClock transportsUp sampleStore
           1%positive (sampleDoc Email) (2001 + 30 * 86400000)%Z).
  - vm_compute. apply elem_of_cons. by left.
  - simpl. lia.
Defined.

(** ** From the response back to the stored record *)

(** X13.  The ids in the response of [scheduleItemNotification] identify
    the records just created: looking one up in the collection of its
    channel gives a [scheduled] record for the requested owner, item and
    date, holding the contact of that channel only, with [category],
    [notificationType] and [reminderDaysBefore] defaulting to ['general'],
    ['reminder'] and 7; and the id was not in use before the call. *)
Theorem scheduled_ids_identify_the_stored_records clk req s date ids ch id :
  store_wf s →
  validRequest clk req date →
  (scheduleItemNotification clk req s).1 = Response ids →
  scheduledId ch ids = Some id →
  let contact := default noContact (r_userContact req) in
  docs (collection ch s) !! id = None
  ∧ ∃ n, docs (collection ch (scheduleItemNotification clk req s).2) !! id = Some n
      ∧ status n = Scheduled
      ∧ userId n = default "" (r_userId req)
      ∧ itemId n = default "" (r_itemId req)
      ∧ itemName n = default "" (r_itemName req)
      ∧ scheduledDate n = date
      ∧ userContact n = channelContact contact ch
      ∧ category n = or_string (r_category req) "general"
      ∧ notificationType n = or_string (r_notificationType req) "reminder"
      ∧ reminderDaysBefore n = or_Z (r_reminderDaysBefore req) 7.
Proof.
  intros Hwf Hv Hres Hid. cbv zeta.
  pose proof (valid_request_response clk req s date Hv) as Hfst. cbv zeta in Hfst.
  rewrite Hfst in Hres.
  destruct (_ || _); [|done]. injection Hres as <-.
  assert (Hel : eligible (default defaultPreferences (r_userPreferences req))
                  (default noContact (r_userContact req)) ch = true
                ∧ id = nextId (collection ch s)).
  { destruct ch; simpl in Hid |- *; destruct (_ && _); by simplify_eq. }
  destruct Hel as [Hel ->].
  split.
  - destruct (docs (collection ch s) !! nextId (collection ch s)) as [n0|] eqn:Hl; [|done].
    specialize (Hwf ch _ _ Hl). lia.
  - rewrite (valid_request_store clk req s date ch Hv), Hel. simpl.
    rewrite lookup_insert_eq. eexists. split; [reflexivity|]. simpl.
    repeat split. destruct (r_reminderDaysBefore req) as [z|]; simpl; [|done].
    destruct (z =? 0)%Z eqn:Hz; simpl; [done|]. by rewrite Hz.
Qed.

Lemma scheduled_ids_identify_the_stored_records_witness :
  docs (collection Push emptyStore) !! 1%positive = None
  ∧ ∃ n, docs (collection Push
                 (scheduleItemNotification sampleRequestClock sampleRequest emptyStore).2)
           !! 1%positive = Some n
      ∧ status n = Scheduled
      ∧ userId n = "u1" ∧ itemId n = "laptop" ∧ itemName n = "Laptop Warranty"
      ∧ scheduledDate n = 1000%Z
      ∧ userContact n = channelContact sampleContact Push
      ∧ category n = "hardware"
      ∧ notificationType n = "reminder"
      ∧ reminderDaysBefore n = 7%Z.
Proof.
  apply (scheduled_ids_identify_the_stored_records sampleRequestClock sampleRequest
           emptyStore 1000%Z
           {| id_push := Some 1%positive; id_email := Some 1%positive; id_sms := None |}
           Push 1%positive emptyStore_wf
           (sampleRequest_valid sampleRequest eq_refl eq_refl eq_refl eq_refl)).
  - reflexivity.
  - reflexivity.
Defined.

(** ** The email and SMS senders *)

Lemma sendEmailNotification_call tr n addr :
  email (userContact n) = Some addr → truthy addr = true →
  EmailScheduler.sendEmailNotification tr n
  = (match emailService tr addr (reminderContent n) with
     | Rejected e => Threw ("Email: " +:+ e)
     | Fulfilled false =>
         Threw ("Email failed for " +:+ itemName n +:+ ": No response from email service")
     | Fulfilled true => Returned tt
     end, [EmailTo addr (reminderContent n)]).
Proof.
  intros Haddr Htruthy. unfold EmailScheduler.sendEmailNotification, reminderContent.
  rewrite Haddr. simpl. rewrite Htruthy. simpl.
  unfold EmailService.sendSubscriptionReminder, EmailService.sendLicenseExpirationReminder,
    EmailService.sendWarrantyExpirationReminder, EmailService.sendEmail, EmailService.send.
  repeat destruct (String.eqb _ _); by destruct (emailService tr addr _) as [[|]|].
Qed.

(** X14.  With [EmailService] over a mailer, the email sender makes exactly
    one call per record, to the record's address and with the content chosen
    by its category; it returns when the mailer accepts the message, and
    when the mailer refuses it throws the "No response from email service"
    error of that item, so that the dispatcher takes the failure path.  The
    [Email: ...] rethrow is never reached, since [sendEmail] does not
    reject. *)
Theorem email_is_sent_iff_the_mailer_accepts sendMail tr n addr :
  email (userContact n) = Some addr →
  truthy addr = true →
  let out := EmailScheduler.sendEmailNotification (withMailer sendMail tr) n in
  out.2 = [EmailTo addr (reminderContent n)]
  ∧ (isFulfilled (sendMail addr (reminderContent n)) = true → out.1 = Returned tt)
  ∧ (isFulfilled (sendMail addr (reminderContent n)) = false →
     out.1 = Threw ("Email failed for " +:+ itemName n
                    +:+ ": No response from email service")).
Proof.
  intros Haddr Htruthy out. unfold out.
  rewrite (sendEmailNotification_call _ n addr Haddr Htruthy). simpl.
  unfold sendEmailVia. split; [done|].
  by destruct (sendMail addr (reminderContent n)).
Qed.

Lemma email_is_sent_iff_the_mailer_accepts_witness :
  let sendMail : string → Template → Settled unit := λ _ _, Rejected "ECONNREFUSED" in
  let out := EmailScheduler.sendEmailNotification (withMailer sendMail transportsUp)
               (sampleDoc Email) in
  out.2 = [EmailTo "owner@example.org"
             (WarrantyExpirationReminder "Laptop Warranty" 1000%Z 7%Z)]
  ∧ (false = true → out.1 = Returned tt)
  ∧ (false = false →
     out.1 = Threw "Email failed for Laptop Warranty: No response from email service").
Proof.
  intros sendMail.
  apply (email_is_sent_iff_the_mailer_accepts sendMail transportsUp (sampleDoc Email)
           "owner@example.org"); reflexivity.
Defined.

Lemma valid_number_is_truthy num : SMSService.isValidPhoneNumber num = true → truthy num = true.
Proof. by destruct num. Qed.

(** X15.  For a record whose phone number is in E.164 format, the SMS
    sender makes exactly one Twilio call, to that number and with the
    content chosen by the record's category; it returns when Twilio accepts
    the message and throws the "No response from SMS service" error of the
    item when Twilio refuses. *)
Theorem sms_to_a_valid_number_calls_twilio_once tr n num :
  phone (userContact n) = Some num →
  SMSService.isValidPhoneNumber num = true →
  let out := SmsScheduler.sendSMSNotification tr n in
  out.2 = [SmsTo num (reminderContent n)]
  ∧ (isFulfilled (twilio tr num (reminderContent n)) = true → out.1 = Returned tt)
  ∧ (isFulfilled (twilio tr num (reminderContent n)) = false →
     out.1 = Threw ("SMS failed for " +:+ itemName n +:+ ": No response from SMS service")).
Proof.
  intros Hnum Hvalid. cbv zeta.
  unfold SmsScheduler.sendSMSNotification, reminderContent.
  rewrite Hnum. simpl. rewrite (valid_number_is_truthy num Hvalid). simpl.
  unfold SMSService.sendSubscriptionReminderSMS, SMSService.sendLicenseExpirationReminderSMS,
    SMSService.sendWarrantyExpirationReminderSMS, SMSService.sendItemReminderSMS,
    SMSService.sendSMS.
  rewrite Hvalid. simpl.
  repeat destruct (String.eqb _ _); by destruct (twilio tr num _).
Qed.

Lemma sms_to_a_valid_number_calls_twilio_once_witness :
  let out := SmsScheduler.sendSMSNotification transportsDown (sampleDoc Sms) in
  out.2 = [SmsTo "+14155550100" (WarrantyExpirationReminder "Laptop Warranty" 1000%Z 7%Z)]
  ∧ (false = true → out.1 = Returned tt)
  ∧ (false = false →
     out.1 = Threw "SMS failed for Laptop Warranty: No response from SMS service").
Proof.
  apply (sms_to_a_valid_number_calls_twilio_once transportsDown (sampleDoc Sms)
           "+14155550100"); reflexivity.
Defined.

(** ** The test entry point *)








(** ** Listing *)

Section SortDesc.
Context {A : Type} (key : A → Z).

Lemma insertDesc_perm x l : insertDesc key x l ≡ₚ x :: l.
Proof.
  induction l as [|y l IH]; simpl; [done|].
  destruct (key y <=? key x)%Z; [done|]. rewrite IH. apply Permutation_swap.
Qed.

Lemma sortDesc_perm l : sortDesc key l ≡ₚ l.
Proof.
  induction l as [|x l IH]; simpl; [done|]. by rewrite insertDesc_perm, IH.
Qed.

Lemma insertDesc_descending x l : descending key l → descending key (insertDesc key x l).
Proof.
  unfold descending. induction l as [|y l IH]; simpl; intros Hl.
  - apply StronglySorted_cons. split; [constructor|constructor].
  - apply StronglySorted_cons in Hl as [Hy Hl].
    destruct (Z.leb_spec (key y) (key x)) as [Hle|Hgt].
    + apply StronglySorted_cons. split.
      * constructor; [done|]. eapply Forall_impl; [exact Hy|]. simpl. lia.
      * by apply StronglySorted_cons.
    + apply StronglySorted_cons. split; [|by apply IH].
      rewrite insertDesc_perm. constructor; [lia|done].
Qed.

Lemma sortDesc_descending l : descending key (sortDesc key l).
Proof.
  induction l as [|x l IH]; simpl; [constructor|]. by apply insertDesc_descending.
Qed.

Lemma descending_take k l : descending key l → descending key (take k l).
Proof.
  unfold descending. intros Hl. rewrite <-(take_drop k l) in Hl.
  by apply StronglySorted_app_1_l in Hl.
Qed.

(** What a limit cuts off comes after everything it keeps. *)
Lemma descending_cut k l x :
  descending key l → x ∈ l → x ∉ take k l →
  length (take k l) = k ∧ ∀ y, y ∈ take k l → (key x ≤ key y)%Z.
Proof.
  unfold descending. intros Hl Hin Hnot.
  rewrite <-(take_drop k l) in Hin, Hl. apply elem_of_app in Hin as [?|Hdrop]; [done|].
  split.
  - destruct (decide (length l ≤ k)) as [Hshort|Hlong].
    + rewrite drop_ge in Hdrop by done. by apply elem_of_nil in Hdrop.
    + rewrite length_take. lia.
  - intros y Hy. apply (StronglySorted_app_1_elem_of _ _ _ y x Hl Hy Hdrop).
Qed.
End SortDesc.

(** X17.  [getScheduledXNotifications] returns the user's most recently
    due notifications: at most [limit] documents, each one a document of the
    collection that belongs to the user (and has the status asked for, when
    one is given), no document twice, ordered by due date, latest first; and
    a document of the user that is left out is due no later than every
    document returned, which then number exactly [limit]. *)
Theorem listing_returns_the_latest_of_the_user u st limit c :
  let r := getScheduledNotifications u st limit c in
  length r ≤ limit
  ∧ descending (λ p, scheduledDate p.2) r
  ∧ NoDup r.*1
  ∧ (∀ id n, (id, n) ∈ r → docs c !! id = Some n ∧ listedFor u st n)
  ∧ (∀ id n, docs c !! id = Some n → listedFor u st n → (id, n) ∉ r →
       length r = limit ∧ ∀ p, p ∈ r → (scheduledDate n ≤ scheduledDate p.2)%Z).
Proof.
  cbv zeta. unfold getScheduledNotifications.
  set (key := λ p : DocId * Notification, scheduledDate p.2).
  set (q := query (listedFor u st) c).
  split; [rewrite length_take; lia|]. split; [|split; [|split]].
  - apply descending_take, sortDesc_descending.
  - apply (sublist_NoDup _ (sortDesc key q).*1).
    + rewrite sortDesc_perm. apply (query_NoDup (listedFor u st)).
    + apply fmap_sublist, sublist_take.
  - intros id n Hin. apply subseteq_take in Hin. rewrite sortDesc_perm in Hin.
    apply (elem_of_query (listedFor u st)) in Hin as [? ?]. done.
  - intros id n Hl Hlisted Hnot.
    apply (descending_cut key limit (sortDesc key q) (id, n)); [|rewrite sortDesc_perm|done].
    + apply sortDesc_descending.
    + by apply (elem_of_query (listedFor u st)).
Qed.

Lemma listing_returns_the_latest_of_the_user_witness :
  let later := markRetry 1 "down" 5000%Z 2003%Z (sampleDoc Email) in
  let c := (add later (sampleCollection Email)).2 in
  getScheduledNotifications "u1" (Some "scheduled") 1 c = [(2%positive, later)]
  ∧ (1000 ≤ 5000)%Z.
Proof.
  intros later c. split; [vm_compute; reflexivity|].
  destruct (listing_returns_the_latest_of_the_user "u1" (Some "scheduled") 1 c)
    as (_ & _ & _ & _ & Hcut).
  destruct (Hcut 1%positive (sampleDoc Email)) as [_ Hlatest].
  - reflexivity.
  - unfold listedFor. simpl. done.
  - vm_compute. intros Hin. apply elem_of_cons in Hin as [Heq|Hin]; [done|].
    by apply elem_of_nil in Hin.
  - apply (Hlatest (2%positive, later)). vm_compute. apply elem_of_cons. by left.
Defined.





(** ** Phone numbers and mail text *)

Lemma length_string_of_list l : String.length (string_of_list_ascii l) = length l.
Proof. induction l as [|a l IH]; simpl; [done|]. by rewrite IH. Qed.

Lemma forallb_filter_same {A} (f : A → bool) l : forallb f (List.filter f l) = true.
Proof.
  induction l as [|a l IH]; simpl; [done|].
  destruct (f a) eqn:Hf; simpl; [by rewrite Hf|done].
Qed.

Lemma digitsOf_digits p :
  forallb SMSService.isDigit (list_ascii_of_string (digitsOf p)) = true.
Proof.
  unfold digitsOf. rewrite list_ascii_of_string_of_list_ascii. apply forallb_filter_same.
Qed.

Lemma startsWithPlus_append cc d :
  startsWithPlus cc = true → startsWithPlus (cc +:+ d) = true.
Proof. destruct cc as [|a cc]; [done|]. simpl. by destruct (Ascii.ascii_dec a "+"). Qed.

Lemma isValidPhoneNumber_plus_one d :
  SMSService.isValidPhoneNumber ("+1" +:+ d)
  = forallb SMSService.isDigit (list_ascii_of_string d)
    && (1 <=? String.length d) && (String.length d <=? 14).
Proof. reflexivity. Qed.

(** X19.  [formatPhoneNumber] normalises only numbers written without a
    leading ["+"]: such a number becomes the country code followed by its
    digits, which with the default code ["+1"] is a valid E.164 number
    exactly when it has between 1 and 14 digits.  A number that already
    starts with ["+"] is returned as it is, so it is valid afterwards only if
    it was before.  Formatting twice changes nothing more. *)
Theorem formatted_phone_numbers phoneNumber :
  (startsWithPlus phoneNumber = false →
   formatPhoneNumber phoneNumber "+1" = "+1" +:+ digitsOf phoneNumber
   ∧ (SMSService.isValidPhoneNumber (formatPhoneNumber phoneNumber "+1") = true
      ↔ 1 ≤ String.length (digitsOf phoneNumber) ≤ 14))
  ∧ (startsWithPlus phoneNumber = true →
     ∀ cc, SMSService.isValidPhoneNumber (formatPhoneNumber phoneNumber cc)
           = SMSService.isValidPhoneNumber phoneNumber)
  ∧ (∀ cc, startsWithPlus cc = true →
       formatPhoneNumber (formatPhoneNumber phoneNumber cc) cc
       = formatPhoneNumber phoneNumber cc).
Proof.
  split; [|split].
  - intros Hplain. unfold formatPhoneNumber. rewrite Hplain. cbn [negb].
    split; [done|].
    rewrite isValidPhoneNumber_plus_one, digitsOf_digits. cbn [andb].
    rewrite andb_true_iff, Nat.leb_le, Nat.leb_le. done.
  - intros Hplus cc. unfold formatPhoneNumber. by rewrite Hplus.
  - intros cc Hcc. unfold formatPhoneNumber at 2.
    destruct (startsWithPlus phoneNumber) eqn:Hp; cbn [negb].
    + unfold formatPhoneNumber. by rewrite Hp.
    + unfold formatPhoneNumber. by rewrite (startsWithPlus_append cc _ Hcc), Hp.
Qed.

Lemma formatted_phone_numbers_witness :
  formatPhoneNumber "(415) 555-0100" "+1" = "+14155550100"
  ∧ SMSService.isValidPhoneNumber (formatPhoneNumber "(415) 555-0100" "+1") = true
  ∧ SMSService.isValidPhoneNumber (formatPhoneNumber "+1 (415) 555-0100" "+1") = false.
Proof.
  destruct (formatted_phone_numbers "(415) 555-0100") as ((Heq & Hvalid) & _);
    [reflexivity|].
  destruct (formatted_phone_numbers "+1 (415) 555-0100") as (_ & Hsame & _).
  split; [exact Heq|]. split.
  - apply Hvalid. vm_compute. lia.
  - rewrite (Hsame eq_refl "+1"). reflexivity.
Defined.

Lemma hasClosing_stripTagsFrom b s :
  hasClosing s = false → hasClosing (stripTagsFrom b s) = false.
Proof.
  revert b. induction s as [|c r IH]; intros b; simpl; [done|].
  destruct (Ascii.eqb c ">") eqn:Hc; [done|]. intros Hr.
  destruct b; [by apply IH|].
  rewrite Hr, andb_false_r. simpl. rewrite Hc. by apply IH.
Qed.

Lemma tagFree_stripTagsFrom b s : tagFree (stripTagsFrom b s) = true.
Proof.
  revert b. induction s as [|c r IH]; intros b; simpl; [done|].
  destruct b.
  - destruct (Ascii.eqb c ">"); apply IH.
  - destruct (Ascii.eqb c "<" && hasClosing r) eqn:Htag; [apply IH|].
    simpl. rewrite IH, andb_true_r.
    apply andb_false_iff in Htag as [->|Hr]; [done|].
    by rewrite (hasClosing_stripTagsFrom false r Hr), andb_false_r.
Qed.

Lemma stripTags_tagFree s : tagFree s = true → stripTags s = s.
Proof.
  unfold stripTags. induction s as [|c r IH]; simpl; [done|].
  rewrite andb_true_iff, negb_true_iff. intros [-> Hr]. by rewrite IH.
Qed.

Lemma length_stripTagsFrom b s : String.length (stripTagsFrom b s) ≤ String.length s.
Proof.
  revert b. induction s as [|c r IH]; intros b; simpl; [done|].
  destruct b.
  - destruct (Ascii.eqb c ">"); [specialize (IH false)|specialize (IH true)]; lia.
  - destruct (Ascii.eqb c "<" && hasClosing r); simpl;
      [specialize (IH true)|specialize (IH false)]; lia.
Qed.

(** X20.  The plain-text part of a mail is the given text or, without one,
    the HTML with its tags removed.  After the removal no tag is left (no
    ["<"] with a [">"] after it), so that removing again changes nothing;
    the text is never longer than the HTML; and HTML without tags is taken
    as it is. *)
Theorem mail_text_has_no_tags text html :
  (truthy_opt text = true → mailText text html = default "" text)
  ∧ (truthy_opt text = false →
     mailText text html = stripTags html
     ∧ tagFree (mailText text html) = true
     ∧ stripTags (mailText text html) = mailText text html
     ∧ String.length (mailText text html) ≤ String.length html
     ∧ (tagFree html = true → mailText text html = html)).
Proof.
  split.
  - intros Ht. unfold mailText. destruct text as [t|]; [|done]. simpl in *. by rewrite Ht.
  - intros Ht.
    assert (Heq : mailText text html = stripTags html).
    { unfold mailText. destruct text as [t|]; [|done]. simpl in Ht. by rewrite Ht. }
    rewrite Heq. split; [done|]. split; [apply tagFree_stripTagsFrom|].
    split; [apply stripTags_tagFree, tagFree_stripTagsFrom|].
    split; [apply length_stripTagsFrom|]. apply stripTags_tagFree.
Qed.

Lemma mail_text_has_no_tags_witness :
  mailText None "<p>Your <strong>Laptop</strong> warranty: 5 > 3 and 1 < 2"
  = "Your Laptop warranty: 5 > 3 and 1 < 2"
  ∧ tagFree (mailText None "<p>Your <strong>Laptop</strong> warranty: 5 > 3 and 1 < 2")
    = true
  ∧ mailText (Some "") "<p>3 < 5</p>" = "3 ".
Proof.
  destruct (mail_text_has_no_tags None
              "<p>Your <strong>Laptop</strong> warranty: 5 > 3 and 1 < 2") as [_ Hstrip].
  destruct (Hstrip eq_refl) as (Heq & Hfree & _).
  destruct (mail_text_has_no_tags (Some "") "<p>3 < 5</p>") as [_ Hempty].
  destruct (Hempty eq_refl) as (Heq' & _).
  split; [rewrite Heq; reflexivity|]. split; [exact Hfree|]. rewrite Heq'. reflexivity.
Defined.

(** ** Item validation *)

Lemma pushIf_nil b e errors : pushIf b e errors = [] ↔ b = false ∧ errors = [].
Proof.
  unfold pushIf. destruct b.
  - split; [|by intros [? _]]. intros H. by apply app_eq_nil in H as [_ ?].
  - split; [done|by intros [_ ?]].
Qed.

Lemma strictEq_true x v : strictEq x v = true ↔ x = Some v.
Proof.
  destruct x as [w|]; simpl; [|done]. rewrite String.eqb_eq. split; congruence.
Qed.

Lemma guarded_nil {D} (P : D → Prop) (Q : Prop) (o : option D) (g : bool)
    (f : D → list string) (errors : list string) :
  (∀ d, f d = [] ↔ P d ∧ errors = []) →
  (errors = [] ↔ Q) →
  match o with Some d => if g then f d else errors | None => errors end = []
  ↔ Q ∧ ∀ d, o = Some d → g = true → P d.
Proof.
  intros Hf <-. destruct o as [d|]; [destruct g|].
  - rewrite Hf. split.
    + intros [HP ->]. split; [done|]. intros d' [= <-] _. done.
    + intros [-> HP]. split; [by apply HP|done].
  - split; [intros ->; split; [done|]; intros ? _ [=]|by intros [-> _]].
  - split; [intros ->; split; [done|]; intros ? [=]|by intros [-> _]].
Qed.

Lemma frequency_is_truthy x :
  includes ["monthly"; "yearly"; "weekly"; "custom"] x = true → truthy_opt x = true.
Proof. by destruct x as [[|a r]|]. Qed.

(** X21.  [validateItemData] reports no error exactly when the item has a
    name and one of the three categories, and the details supplied for that
    category are in order: for a subscription, both renewal dates present
    and, if it is recurring, one of the four frequencies; for software, a
    license type that is absent or one of the four known; for hardware, a
    condition that is absent or one of the three known.  Details are checked
    only when supplied, and only those of the item's own category. *)
Theorem item_is_accepted_iff_well_formed body category' :
  validateItemData body category' = [] ↔
  truthy_opt (b_name body) = true
  ∧ includes ["hardware"; "software"; "subscription"] category' = true
  ∧ (∀ d, category' = Some "subscription" → b_subscriptionDetails body = Some d →
       truthy_opt (lastRenewalDate d) = true ∧ truthy_opt (nextRenewalDate d) = true
       ∧ (isRecurring d = true →
          includes ["monthly"; "yearly"; "weekly"; "custom"] (renewalFrequency d) = true))
  ∧ (∀ d, category' = Some "software" → b_softwareDetails body = Some d →
       truthy_opt (licenseType d) = true →
       includes ["lifetime"; "subscription"; "trial"; "open-source"] (licenseType d) = true)
  ∧ (∀ d, category' = Some "hardware" → b_hardwareDetails body = Some d →
       truthy_opt (condition d) = true →
       includes ["new"; "used"; "refurbished"] (condition d) = true).
Proof.
  unfold validateItemData. cbv zeta.
  etrans.
  { apply (guarded_nil
             (λ d, (truthy_opt (condition d)
                    && negb (includes ["new"; "used"; "refurbished"] (condition d))) = false));
      [intros d; apply pushIf_nil|].
    apply (guarded_nil
             (λ d, (truthy_opt (licenseType d)
                    && negb (includes ["lifetime"; "subscription"; "trial"; "open-source"]
                               (licenseType d))) = false));
      [intros d; apply pushIf_nil|].
    apply (guarded_nil
             (λ d, (negb (truthy_opt (lastRenewalDate d))
                    || negb (truthy_opt (nextRenewalDate d))) = false
                   ∧ (isRecurring d
                      && negb (includes ["monthly"; "yearly"; "weekly"; "custom"]
                                 (renewalFrequency d))) = false
                   ∧ (isRecurring d && negb (truthy_opt (renewalFrequency d))) = false));
      [intros d; rewrite !pushIf_nil; tauto|].
    rewrite !pushIf_nil. reflexivity. }
  rewrite !negb_false_iff.
  split.
  - intros [[[(Hcat & Hname & _) Hsub] Hsoft] Hhard].
    split; [done|]. split; [done|]. split; [|split].
    + intros d Hc Hd. apply strictEq_true in Hc.
      destruct (Hsub d Hd Hc) as (Hdates & Hfreq & _).
      apply orb_false_iff in Hdates as [Hl Hx]. apply negb_false_iff in Hl, Hx.
      split; [done|]. split; [done|]. intros Hrec. rewrite Hrec in Hfreq.
      by apply negb_false_iff in Hfreq.
    + intros d Hc Hd Ht. apply strictEq_true in Hc. specialize (Hsoft d Hd Hc).
      rewrite Ht in Hsoft. by apply negb_false_iff in Hsoft.
    + intros d Hc Hd Ht. apply strictEq_true in Hc. specialize (Hhard d Hd Hc).
      rewrite Ht in Hhard. by apply negb_false_iff in Hhard.
  - intros (Hname & Hcat & Hsub & Hsoft & Hhard).
    split; [split; [split; [done|]|]|].
    + intros d Hd Hc. apply strictEq_true in Hc.
      destruct (Hsub d Hc Hd) as (Hl & Hx & Hfreq). rewrite Hl, Hx.
      split; [done|]. destruct (isRecurring d); [|done].
      specialize (Hfreq eq_refl). rewrite Hfreq, (frequency_is_truthy _ Hfreq). done.
    + intros d Hd Hc. apply strictEq_true in Hc. specialize (Hsoft d Hc Hd).
      destruct (truthy_opt (licenseType d)); [|done]. by rewrite Hsoft.
    + intros d Hd Hc. apply strictEq_true in Hc. specialize (Hhard d Hc Hd).
      destruct (truthy_opt (condition d)); [|done]. by rewrite Hhard.
Qed.

Lemma item_is_accepted_iff_well_formed_witness :
  validateItemData
    {| b_name := Some "Music plan";
       b_subscriptionDetails :=
         Some {| lastRenewalDate := Some "2025-01-01"; nextRenewalDate := Some "2025-02-01";
                 isRecurring := true; renewalFrequency := Some "monthly" |};
       b_softwareDetails := Some {| licenseType := Some "perpetual" |};
       b_hardwareDetails := None |}
    (Some "subscription") = [].
Proof.
  apply item_is_accepted_iff_well_formed. cbn.
  split; [done|]. split; [done|]. split; [|split].
  - by intros d _ [= <-].
  - by intros d [=].
  - by intros d [=].
Defined.

Lemma elem_of_pushIf x b e errors :
  x ∈ pushIf b e errors ↔ x ∈ errors ∨ (b = true ∧ x = e).
Proof.
  unfold pushIf. destruct b.
  - rewrite elem_of_app, elem_of_cons, elem_of_nil. tauto.
  - intuition discriminate.
Qed.

(** X22.  A recurring subscription whose renewal frequency is missing or
    empty is reported twice: [validateItemData] tests the frequency for
    presence and for membership in the list of frequencies independently, so
    both messages are among the errors. *)
Theorem missing_frequency_is_reported_twice body d :
  b_subscriptionDetails body = Some d →
  isRecurring d = true →
  truthy_opt (renewalFrequency d) = false →
  "Renewal frequency is required for recurring subscriptions"
    ∈ validateItemData body (Some "subscription")
  ∧ "Invalid renewal frequency" ∈ validateItemData body (Some "subscription").
Proof.
  intros Hd Hrec Hfreq. unfold validateItemData. cbv zeta. rewrite Hd.
  assert (includes ["monthly"; "yearly"; "weekly"; "custom"] (renewalFrequency d) = false)
    as Hinc by (by destruct (renewalFrequency d) as [[|a r]|]).
  rewrite Hrec, Hfreq, Hinc. cbn [strictEq String.eqb Ascii.eqb Bool.eqb andb negb].
  destruct (b_softwareDetails body), (b_hardwareDetails body);
    rewrite !elem_of_pushIf; tauto.
Qed.

Lemma missing_frequency_is_reported_twice_witness :
  let body := {| b_name := Some "Music plan";
                 b_subscriptionDetails :=
                   Some {| lastRenewalDate := Some "2025-01-01";
                           nextRenewalDate := Some "2025-02-01";
                           isRecurring := true; renewalFrequency := None |};
                 b_softwareDetails := None; b_hardwareDetails := None |} in
  "Renewal frequency is required for recurring subscriptions"
    ∈ validateItemData body (Some "subscription")
  ∧ "Invalid renewal frequency" ∈ validateItemData body (Some "subscription").
Proof.
  intros body.
  apply (missing_frequency_is_reported_twice body
           {| lastRenewalDate := Some "2025-01-01"; nextRenewalDate := Some "2025-02-01";
              isRecurring := true; renewalFrequency := None |}); reflexivity.
Defined.
